(** * LatentDynamicsModel: the latent dynamics predictor and its memo store

    A shallow embedding of [src/models/latent_dynamics_model.py].

    - A tensor is a shape with row-major data, as in torch.  It is a
      value: the device it lives on and its gradient bookkeeping are not
      part of it.  Its dtype is its element type [F], which is also the
      element type of the layers: inputs of another dtype, which
      [nn.Linear] refuses, are outside the model.
    - The torch primitives the module calls ([torch.cat] along the last
      axis, [nn.Linear], [torch.relu], [torch.sigmoid] and broadcasting
      [+]) are modelled with the shape checks torch performs; a failed
      check is the [RuntimeError] the Python code lets escape.
    - The scalar arithmetic is an interface ([Scalar]): what is proved
      about the memo store, the shapes and delta mode holds for whatever
      arithmetic the tensors carry.  [Binary32] instantiates it with IEEE
      754 single precision, torch's default: the model is run there on
      concrete inputs, and the range of the termination probability is a
      statement about that arithmetic.
    - [self.memos] is a finite map keyed by [HashedTensor]; the methods
      take the instance and return it with their result. *)

From Stdlib Require Import ZArith Floats.SpecFloat.
From stdpp Require Import base option list countable gmap.

(** ** Scalars *)

(** The element type of a tensor with the scalar operations the layers
    use.  [Frelu] and [Fsigmoid] are the element-wise actions of
    [torch.relu] and [torch.sigmoid]. *)
Class Scalar (F : Type) := {
  Fzero : F;
  Fadd : F → F → F;
  Fmul : F → F → F;
  Frelu : F → F;
  Fsigmoid : F → F
}.

(** ** Errors *)

(** The shape errors torch raises; all of them are [RuntimeError]s that
    [forward] and [set_memo] do not catch. *)
Inductive error :=
  | ZeroDimCat          (* zero-dimensional tensor cannot be concatenated *)
  | CatSizeMismatch     (* sizes must match except in the cat dimension *)
  | LinearShapeMismatch (* mat1 and mat2 shapes cannot be multiplied *)
  | BroadcastMismatch.  (* sizes must match at non-singleton dimension *)

Inductive result (A : Type) :=
  | Ok (a : A)
  | Raise (e : error).
Arguments Ok {A} a.
Arguments Raise {A} e.

#[global] Instance result_ret : MRet result := λ A a, Ok a.
#[global] Instance result_bind : MBind result := λ A B f m,
  match m with
  | Ok a => f a
  | Raise e => Raise e
  end.

#[global] Instance error_eq_dec : EqDecision error.
Proof. solve_decision. Defined.

(** ** Tensors *)

Record Tensor (F : Type) := mkTensor {
  shape : list nat;
  data : list F
}.
Arguments mkTensor {F} shape data.
Arguments shape {F} t.
Arguments data {F} t.

(** Number of elements of a tensor of shape [s]. *)
Definition numel (s : list nat) : nat := foldr Nat.mul 1 s.

(** Leading axes and size of the last axis; [None] for a 0-dim tensor. *)
Fixpoint unsnoc (s : list nat) : option (list nat * nat) :=
  match s with
  | [] => None
  | w :: s' =>
      match unsnoc s' with
      | None => Some ([], w)
      | Some (l, w') => Some (w :: l, w')
      end
  end.

(** [n] consecutive rows of width [w] of row-major data. *)
Fixpoint chunks {A} (n w : nat) (d : list A) : list (list A) :=
  match n with
  | 0 => []
  | S n' => take w d :: chunks n' w (drop w d)
  end.

(** ** Linear layers *)

Record Linear (F : Type) := mkLinear {
  in_features : nat;
  out_features : nat;
  weight : list (list F);   (* out_features rows of in_features entries *)
  bias : list F             (* out_features entries *)
}.
Arguments mkLinear {F} in_features out_features weight bias.
Arguments in_features {F} l.
Arguments out_features {F} l.
Arguments weight {F} l.
Arguments bias {F} l.

Inductive Device := cpu | cuda | mps.

Section Torch.
Context {F : Type} `{Scalar F}.

Definition valid (t : Tensor F) : Prop := length (data t) = numel (shape t).

(** [tensor.to(device)]: a transfer keeps shape and contents. *)
Definition Tensor_to (t : Tensor F) (d : Device) : Tensor F := t.

(** torch leaves a 1-dimensional empty tensor out of a concatenation. *)
Definition cat_should_skip (t : Tensor F) : bool :=
  bool_decide (shape t = [0]).

(** [torch.cat([a, b], dim=-1)]. *)
Definition torch_cat (a b : Tensor F) : result (Tensor F) :=
  match unsnoc (shape a), unsnoc (shape b) with
  | Some (la, wa), Some (lb, wb) =>
      if cat_should_skip a then
        if cat_should_skip b then Ok (mkTensor [0] []) else Ok b
      else if cat_should_skip b then Ok a
      else if bool_decide (la = lb) then
        Ok (mkTensor (la ++ [wa + wb])
              (concat (zip_with app (chunks (numel la) wa (data a))
                                    (chunks (numel la) wb (data b)))))
      else Raise CatSizeMismatch
  | _, _ => Raise ZeroDimCat
  end.

(** The sum of products of one row with one row of weights, accumulated
    from left to right.  torch picks the kernel, and with it the order of
    the sum, by the shape of the operands: computed values are compared
    only between calls on inputs of one shape. *)
Definition dot (x w : list F) : F :=
  foldl (λ acc p, Fadd acc (Fmul p.1 p.2)) Fzero (zip x w).

(** One row through [y = x Wᵀ + b]. *)
Definition affine (l : Linear F) (x : list F) : list F :=
  zip_with (λ w b, Fadd (dot x w) b) (weight l) (bias l).

(** [nn.Linear.forward]: acts on the last axis, which must have
    [in_features] entries. *)
Definition Linear_forward (l : Linear F) (x : Tensor F) : result (Tensor F) :=
  match unsnoc (shape x) with
  | None => Raise LinearShapeMismatch
  | Some (lead, w) =>
      if bool_decide (w = in_features l) then
        Ok (mkTensor (lead ++ [out_features l])
              (concat (affine l <$> chunks (numel lead) w (data x))))
      else Raise LinearShapeMismatch
  end.

Definition torch_relu (t : Tensor F) : Tensor F :=
  mkTensor (shape t) (Frelu <$> data t).

Definition torch_sigmoid (t : Tensor F) : Tensor F :=
  mkTensor (shape t) (Fsigmoid <$> data t).

(** Broadcasting of two shapes, both given last axis first. *)
Fixpoint broadcast_rev (ra rb : list nat) : option (list nat) :=
  match ra, rb with
  | [], _ => Some rb
  | _, [] => Some ra
  | x :: ra', y :: rb' =>
      r ← broadcast_rev ra' rb';
      if bool_decide (x = y) then Some (x :: r)
      else if bool_decide (x = 1) then Some (y :: r)
      else if bool_decide (y = 1) then Some (x :: r)
      else None
  end.

Definition broadcast_shapes (sa sb : list nat) : option (list nat) :=
  reverse <$> broadcast_rev (reverse sa) (reverse sb).

Definition pad_shape (n : nat) (s : list nat) : list nat :=
  replicate (n - length s) 1 ++ s.

(** Data of a tensor of shape [from] expanded to shape [to] (same rank,
    every axis equal or of size 1 in [from]). *)
Fixpoint expand (from to : list nat) (d : list F) : list F :=
  match from, to with
  | f :: fs, t :: ts =>
      if bool_decide (f = t) then
        concat (expand fs ts <$> chunks f (numel fs) d)
      else concat (replicate t (expand fs ts d))
  | _, _ => d
  end.

(** [a + b] on tensors. *)
Definition tensor_add (a b : Tensor F) : result (Tensor F) :=
  match broadcast_shapes (shape a) (shape b) with
  | None => Raise BroadcastMismatch
  | Some s =>
      Ok (mkTensor s
            (zip_with Fadd
               (expand (pad_shape (length s) (shape a)) s (data a))
               (expand (pad_shape (length s) (shape b)) s (data b))))
  end.
End Torch.

#[global] Instance result_fmap : FMap result := λ A B f m,
  match m with
  | Ok a => Ok (f a)
  | Raise e => Raise e
  end.

(** ** Memo keys *)

(** Modelled from the spec: [HashedTensor] of [src.utils] is not part of
    the sources.  It wraps one tensor and hashes and compares by value:
    two keys are equal iff the wrapped tensors have the same shape and are
    element-wise identical. *)
Record HashedTensor (F : Type) := mkHashedTensor {
  tensor : Tensor F
}.
Arguments mkHashedTensor {F} tensor.
Arguments tensor {F} h.

Section Keys.
Context {F : Type} `{Countable F}.

#[global] Instance Tensor_eq_dec : EqDecision (Tensor F).
Proof. solve_decision. Defined.

#[global] Instance Tensor_countable : Countable (Tensor F).
Proof.
  refine (inj_countable' (λ t, (shape t, data t))
                         (λ p, mkTensor p.1 p.2) _).
  by intros [].
Defined.

#[global] Instance HashedTensor_eq_dec : EqDecision (HashedTensor F).
Proof. solve_decision. Defined.

#[global] Instance HashedTensor_countable : Countable (HashedTensor F).
Proof.
  refine (inj_countable' tensor mkHashedTensor _).
  by intros [].
Defined.
End Keys.

(** ** The model *)

(** Modelled from the spec: [get_device] of [src.utils] is not part of the
    sources.  It returns the requested compute target, or the best one
    available on the host ([best]) when none is requested. *)
Definition get_device (best : Device) (device : option Device) : Device :=
  default best device.

(** [nn.Linear(i, o)] allocates a weight of [o] rows of [i] entries and a
    bias of [o] entries; their initial values come from the generator
    state, here the argument [init]. *)
Definition nn_Linear {F} (i o : nat) (init : list (list F) * list F) : Linear F :=
  mkLinear i o init.1 init.2.

Definition wf_Linear {F} (l : Linear F) : Prop :=
  length (weight l) = out_features l ∧
  Forall (λ row, length row = in_features l) (weight l) ∧
  length (bias l) = out_features l.

(** A stored prediction: next latent state, reward, termination. *)
Abbreviation Triple F := (Tensor F * Tensor F * Tensor F)%type.

(** What [forward] returns: the prediction and the hit flag. *)
Abbreviation Prediction F := (Tensor F * Tensor F * Tensor F * bool)%type.

Section Model.
Context {F : Type} `{Countable F} `{Scalar F}.

Record LatentDynamicsModel := mkModel {
  delta_mode : bool;
  device : Device;
  fc1 : Linear F;
  fc2 : Linear F;
  latent_out : Linear F;
  reward_out : Linear F;
  term_out : Linear F;
  memoize_on : bool;
  memos : gmap (HashedTensor F) (Triple F)
}.

(** Initial values of the five layers. *)
Record Initializer := mkInitializer {
  init_fc1 : list (list F) * list F;
  init_fc2 : list (list F) * list F;
  init_latent_out : list (list F) * list F;
  init_reward_out : list (list F) * list F;
  init_term_out : list (list F) * list F
}.

(** [__init__]. *)
Definition init (latent_state_dim action_dim : nat) (delta_mode : bool)
    (best : Device) (device : option Device) (params : Initializer)
    : LatentDynamicsModel :=
  {| delta_mode := delta_mode;
     device := get_device best device;
     fc1 := nn_Linear (latent_state_dim + action_dim) 256 (init_fc1 params);
     fc2 := nn_Linear 256 32 (init_fc2 params);
     latent_out := nn_Linear 32 latent_state_dim (init_latent_out params);
     reward_out := nn_Linear 32 1 (init_reward_out params);
     term_out := nn_Linear 32 1 (init_term_out params);
     memoize_on := false;
     memos := ∅ |}.

(** Assignments to [self.memoize_on] and [self.memos]. *)
Definition with_memoize_on (b : bool) (self : LatentDynamicsModel) :=
  {| delta_mode := delta_mode self; device := device self;
     fc1 := fc1 self; fc2 := fc2 self; latent_out := latent_out self;
     reward_out := reward_out self; term_out := term_out self;
     memoize_on := b; memos := memos self |}.

Definition with_memos (m : gmap (HashedTensor F) (Triple F))
    (self : LatentDynamicsModel) :=
  {| delta_mode := delta_mode self; device := device self;
     fc1 := fc1 self; fc2 := fc2 self; latent_out := latent_out self;
     reward_out := reward_out self; term_out := term_out self;
     memoize_on := memoize_on self; memos := m |}.

Definition start_memoize (self : LatentDynamicsModel) : LatentDynamicsModel :=
  with_memoize_on true self.

Definition stop_memoize (self : LatentDynamicsModel) : LatentDynamicsModel :=
  with_memoize_on false self.

Definition set_memo (self : LatentDynamicsModel)
    (latent_obs action latent_next_obs reward term : Tensor F)
    : result LatentDynamicsModel :=
  x ← torch_cat latent_obs action;
  let memo_key := mkHashedTensor x in
  Ok (with_memos (<[memo_key := (latent_next_obs, reward, term)]> (memos self)) self).

Definition clear_memos (self : LatentDynamicsModel) : LatentDynamicsModel :=
  with_memos ∅ self.

Definition forward (self : LatentDynamicsModel) (latent_obs action : Tensor F)
    : result (Prediction F * LatentDynamicsModel) :=
  let latent_obs := Tensor_to latent_obs (device self) in
  let action := Tensor_to action (device self) in
  x ← torch_cat latent_obs action;
  (* check if this input has been memoized *)
  let memo_key := mkHashedTensor x in
  match (if memoize_on self then memos self !! memo_key else None) with
  | Some (n, r, t) => Ok ((n, r, t, true), self)
  | None =>
      (* run inputs through the network *)
      x ← torch_relu <$> Linear_forward (fc1 self) x;
      x ← torch_relu <$> Linear_forward (fc2 self) x;
      (* extract the predictions *)
      pred_latent_next_obs ←
        (if delta_mode self then
           o ← Linear_forward (latent_out self) x; tensor_add latent_obs o
         else Linear_forward (latent_out self) x);
      pred_reward ← Linear_forward (reward_out self) x;
      pred_terminate ← torch_sigmoid <$> Linear_forward (term_out self) x;
      (* add to memoization *)
      let self' :=
        if memoize_on self then
          with_memos (<[memo_key := (pred_latent_next_obs, pred_reward,
                                     pred_terminate)]> (memos self)) self
        else self in
      Ok ((pred_latent_next_obs, pred_reward, pred_terminate, false), self')
  end.

(** [nn.Module.__call__] with no hooks registered dispatches to
    [forward]. *)
Definition Module_call := forward.

Definition run (self : LatentDynamicsModel) (latent_obs action : Tensor F) :=
  Module_call self latent_obs action.
End Model.

Arguments LatentDynamicsModel F {_ _}.
Arguments Initializer F : clear implicits.

(** ** Reading [forward] block by block *)

Section Blocks.
Context {F : Type} `{Countable F} `{Scalar F}.
Implicit Types (m : LatentDynamicsModel F) (s a x : Tensor F).

(** The 32-wide hidden representation of the raw input [x]. *)
Definition hidden m x : result (Tensor F) :=
  x ← torch_relu <$> Linear_forward (fc1 m) x;
  torch_relu <$> Linear_forward (fc2 m) x.

(** Raw outputs of the three heads on the raw input [x]. *)
Definition state_head m x : result (Tensor F) :=
  h ← hidden m x; Linear_forward (latent_out m) h.

Definition reward_head m x : result (Tensor F) :=
  h ← hidden m x; Linear_forward (reward_out m) h.

Definition term_head m x : result (Tensor F) :=
  h ← hidden m x; Linear_forward (term_out m) h.

(** The evaluation of the layers on a miss. *)
Definition network m s x : result (Triple F) :=
  h ← hidden m x;
  n ← (if delta_mode m then
         o ← Linear_forward (latent_out m) h; tensor_add s o
       else Linear_forward (latent_out m) h);
  r ← Linear_forward (reward_out m) h;
  t ← torch_sigmoid <$> Linear_forward (term_out m) h;
  Ok (n, r, t).

(** The entry [forward] finds for the raw input [x], if it looks. *)
Definition memo_lookup m x : option (Triple F) :=
  if memoize_on m then memos m !! mkHashedTensor x else None.

(** The instance after a miss on [x] that computed [v]. *)
Definition memo_store m x (v : Triple F) : LatentDynamicsModel F :=
  if memoize_on m then with_memos (<[mkHashedTensor x := v]> (memos m)) m
  else m.

(** One call of a public method; a call that raises leaves the instance
    as it was. *)
Inductive call :=
  | StartMemoize
  | StopMemoize
  | SetMemo (s a ns r t : Tensor F)
  | ClearMemos
  | Forward (s a : Tensor F).

Definition step m (c : call) : LatentDynamicsModel F :=
  match c with
  | StartMemoize => start_memoize m
  | StopMemoize => stop_memoize m
  | SetMemo s a ns r t =>
      match set_memo m s a ns r t with
      | Ok m' => m'
      | Raise _ => m
      end
  | ClearMemos => clear_memos m
  | Forward s a =>
      match forward m s a with
      | Ok (_, m') => m'
      | Raise _ => m
      end
  end.

(** A sequence of calls, first to last. *)
Definition steps m (cs : list call) : LatentDynamicsModel F := foldl step m cs.

(** Calls that neither clear the store nor seed the key [k]. *)
Definition keeps (k : HashedTensor F) (c : call) : Prop :=
  match c with
  | ClearMemos => False
  | SetMemo s a _ _ _ => torch_cat s a ≠ Ok (tensor k)
  | _ => True
  end.

(** The layer sizes [__init__] fixes for dimensions [d_s] and [d_a]. *)
Definition has_dims m (d_s d_a : nat) : Prop :=
  in_features (fc1 m) = d_s + d_a ∧ out_features (fc1 m) = 256 ∧
  in_features (fc2 m) = 256 ∧ out_features (fc2 m) = 32 ∧
  in_features (latent_out m) = 32 ∧ out_features (latent_out m) = d_s ∧
  in_features (reward_out m) = 32 ∧ out_features (reward_out m) = 1 ∧
  in_features (term_out m) = 32 ∧ out_features (term_out m) = 1.

(** Inputs of the widths the model was built for, batched alike. *)
Definition well_shaped (d_s d_a : nat) s a : Prop :=
  ∃ lead, shape s = lead ++ [d_s] ∧ shape a = lead ++ [d_a].
End Blocks.

Arguments call F : clear implicits.

(** ** Queries, stores and sequences of calls *)

Section Queries.
Context {F : Type} `{Countable F} `{Scalar F}.
Implicit Types (m : LatentDynamicsModel F) (s a x : Tensor F).

(** Queries of the widths the model was built for whose data fill their
    shapes. *)
Definition in_domain (d_s d_a : nat) s a : Prop :=
  well_shaped d_s d_a s a ∧ valid s ∧ valid a.

(** In delta mode the layers see the latent state apart from the key, so
    there a query has to be one the model was built for. *)
Definition admissible m (d_s d_a : nat) s a : Prop :=
  delta_mode m = true → in_domain d_s d_a s a.

(** Every entry of the store is what the layers compute for the queries
    with its key. *)
Definition coherent m (d_s d_a : nat) : Prop :=
  ∀ x v, memos m !! mkHashedTensor x = Some v →
    ∀ s a, torch_cat s a = Ok x → admissible m d_s d_a s a →
      network m s x = Ok v.

(** Calls that do not seed the store by hand, with admissible queries. *)
Definition unseeded m (d_s d_a : nat) (c : call F) : Prop :=
  match c with
  | SetMemo _ _ _ _ _ => False
  | Forward s a => admissible m d_s d_a s a
  | _ => True
  end.

(** Calls that toggle the mode flag. *)
Definition toggles (c : call F) : Prop :=
  match c with
  | StartMemoize | StopMemoize => True
  | _ => False
  end.
(** Two instances with the same layers and the same delta mode. *)
Definition same_parameters m1 m2 : Prop :=
  delta_mode m1 = delta_mode m2 ∧ device m1 = device m2 ∧
  fc1 m1 = fc1 m2 ∧ fc2 m1 = fc2 m2 ∧ latent_out m1 = latent_out m2 ∧
  reward_out m1 = reward_out m2 ∧ term_out m1 = term_out m2.

(** Row [i] of a tensor read as a matrix over its last axis,
    [t.reshape(-1, w)[i]]. *)
Definition row (i : nat) (t : Tensor F) : Tensor F :=
  match unsnoc (shape t) with
  | Some (_, w) => mkTensor [w] (take w (drop (i * w) (data t)))
  | None => t
  end.

(** Weights and biases as [nn.Linear] allocates them, in all five
    layers. *)
Definition wf_layers m : Prop :=
  wf_Linear (fc1 m) ∧ wf_Linear (fc2 m) ∧ wf_Linear (latent_out m) ∧
  wf_Linear (reward_out m) ∧ wf_Linear (term_out m).
End Queries.

(** ** IEEE 754 single precision *)

(** The arithmetic of torch's default dtype, on the specification floats
    of the standard library: round to nearest even, 24 bits of precision.
    It is the instance the model is run on for concrete inputs. *)
Module Binary32.

Definition prec : Z := 24.
Definition emax : Z := 128.
Abbreviation float32 := spec_float.

Definition zero : float32 := S754_zero false.
Definition of_Z (z : Z) : float32 := binary_normalize prec emax z 0 false.
Definition one : float32 := of_Z 1.
Definition add : float32 → float32 → float32 := SFadd prec emax.
Definition mul : float32 → float32 → float32 := SFmul prec emax.
Definition div : float32 → float32 → float32 := SFdiv prec emax.

(** [max(x, 0)]; a NaN stays a NaN. *)
Definition relu (x : float32) : float32 :=
  match SFcompare x zero with
  | Some Lt => zero
  | _ => x
  end.

(** [exp] through a fixed-point evaluation with [fx_bits] fractional
    bits: the series of [exp (-t)] at [t = |x| / 2^8 < 1/2], squared eight
    times, and one rounding to single precision at the end.  What is
    proved below about the logistic function uses of [exp] only that it
    is never negative. *)
Definition fx_bits : Z := 256.
Definition fx_one : Z := 2 ^ fx_bits.

Fixpoint exp_horner (n : nat) (k t : Z) : Z :=
  match n with
  | 0 => fx_one
  | S n' => (fx_one - (t * exp_horner n' (k + 1) t / fx_one) / k)%Z
  end.

Definition fx_square (u : Z) : Z := (u * u / fx_one)%Z.

Definition exp_neg (m : positive) (e : Z) : Z :=
  Nat.iter 8 fx_square
    (exp_horner 40 1 (Z.shiftl (Zpos m) (e + fx_bits - 8))).

Definition exp (x : float32) : float32 :=
  match x with
  | S754_nan => S754_nan
  | S754_infinity false => S754_infinity false
  | S754_infinity true => zero
  | S754_zero _ => one
  | S754_finite s m e =>
      if (7 <=? Z.log2 (Zpos m) + e)%Z then
        (* |x| >= 128: beyond the range of the format either way *)
        if s then zero else S754_infinity false
      else
        let u := exp_neg m e in
        if s then binary_normalize prec emax u (- fx_bits) false
        else binary_normalize prec emax (2 ^ (2 * fx_bits + 64) / u)
               (- (fx_bits + 64)) false
  end.

(** The logistic function over the exponential [exp] above. *)
Definition sigmoid (x : float32) : float32 :=
  div one (add one (exp (SFopp x))).

(** The logistic function as torch's CPU kernels evaluate it,
    [1 / (1 + e (- x))] with one rounding for the sum and one for the
    quotient, over the exponential [e] of the kernel.  The scalar and the
    vectorised kernels use different exponentials, which need not be
    correctly rounded; [sigmoid] is [logistic exp]. *)
Definition logistic (e : float32 → float32) (x : float32) : float32 :=
  div one (add one (e (SFopp x))).

(** Floats that are not negative and not NaN. *)
Definition nonneg_float (x : float32) : Prop :=
  match x with
  | S754_zero false | S754_infinity false | S754_finite false _ _ => True
  | _ => False
  end.

(** Floats of value at least 1, infinity included: a finite float with
    mantissa [m] and exponent [e] has the value [m * 2 ^ e]. *)
Definition at_least_one (x : float32) : Prop :=
  match x with
  | S754_infinity false => True
  | S754_finite false m e => (e <= 0 -> 2 ^ (- e) <= Zpos m)%Z
  | _ => False
  end.

(** Floats in the closed interval from 0 to 1. *)
Definition in_unit_interval (x : float32) : Prop :=
  match x with
  | S754_zero false => True
  | S754_finite false m e => (e <= 0 /\ Zpos m <= 2 ^ (- e))%Z
  | _ => False
  end.

(** Floats strictly between 0 and 1. *)
Definition in_open_unit_interval (x : float32) : Prop :=
  match x with
  | S754_finite false m e => (e <= 0 /\ Zpos m < 2 ^ (- e))%Z
  | _ => False
  end.

#[global] Instance float32_eq_dec : EqDecision float32.
Proof. solve_decision. Defined.

#[global] Instance float32_countable : Countable float32.
Proof.
  refine (inj_countable'
    (λ x, match x with
          | S754_zero s => inl (inl s)
          | S754_infinity s => inl (inr s)
          | S754_nan => inr (inl ())
          | S754_finite s m e => inr (inr (s, m, e))
          end)
    (λ y, match y with
          | inl (inl s) => S754_zero s
          | inl (inr s) => S754_infinity s
          | inr (inl _) => S754_nan
          | inr (inr (s, m, e)) => S754_finite s m e
          end) _).
  by intros [].
Defined.

#[global] Instance float32_scalar : Scalar float32 :=
  {| Fzero := zero; Fadd := add; Fmul := mul;
     Frelu := relu; Fsigmoid := sigmoid |}.

(** What the range of the termination probability needs of an
    exponential: its value is never negative and never NaN, unless its
    argument is NaN. *)
Definition exponential (e : float32 → float32) : Prop :=
  ∀ x, x ≠ S754_nan → nonneg_float (e x).

(** Single precision arithmetic whose [torch.sigmoid] is the logistic
    function over the exponential [e]. *)
Definition logistic_scalar (sc : Scalar float32) (e : float32 → float32)
    : Prop :=
  ∀ y, @Fsigmoid float32 sc y = logistic e y.

(** A 1-dimensional tensor of integer-valued entries. *)
Definition vec (zs : list Z) : Tensor float32 :=
  mkTensor [length zs] (of_Z <$> zs).

(** Initial values of a layer: every weight [w], the bias [b]. *)
Definition layer_init (i o : nat) (w : Z) (b : list Z)
    : list (list float32) * list float32 :=
  (replicate o (replicate i (of_Z w)), of_Z <$> b).

(** Parameters for latent dimension 2 and two actions. *)
Definition params22 : Initializer float32 :=
  {| init_fc1 := layer_init 4 256 1 (replicate 256 0%Z);
     init_fc2 := layer_init 256 32 0 (replicate 32 1%Z);
     init_latent_out := layer_init 32 2 0 [1; 2]%Z;
     init_reward_out := layer_init 32 1 0 [3]%Z;
     init_term_out := layer_init 32 1 0 [0]%Z |}.

(** [LatentDynamicsModel(2, 2)] and [LatentDynamicsModel(2, 2, True)]. *)
Definition absolute22 : LatentDynamicsModel float32 :=
  init 2 2 false cpu None params22.

Definition delta22 : LatentDynamicsModel float32 :=
  init 2 2 true cpu None params22.

(** A latent state and the one-hot encoding of the second action. *)
Definition s0 : Tensor float32 := vec [1; 2]%Z.
Definition a0 : Tensor float32 := vec [0; 1]%Z.

(** Inputs of widths 3 and 1: neither is a width of the models above,
    their sum is the width [fc1] expects. *)
Definition s3 : Tensor float32 := vec [1; 2; 3]%Z.
Definition a1 : Tensor float32 := vec [1]%Z.

(** [delta22] with memoization on and the store seeded for [(s0, a0)]. *)
Definition seeded22 : LatentDynamicsModel float32 :=
  match set_memo delta22 s0 a0 (vec [7; 7]%Z) (vec [0]%Z) (vec [0]%Z) with
  | Ok m => start_memoize m
  | Raise _ => delta22
  end.

(** [LatentDynamicsModel(2, 2)] with a termination head that outputs 100
    on every input, and one that outputs -200. *)
Definition saturated22 : LatentDynamicsModel float32 :=
  init 2 2 false cpu None
    {| init_fc1 := init_fc1 params22; init_fc2 := init_fc2 params22;
       init_latent_out := init_latent_out params22;
       init_reward_out := init_reward_out params22;
       init_term_out := layer_init 32 1 0 [100]%Z |}.

Definition flushed22 : LatentDynamicsModel float32 :=
  init 2 2 false cpu None
    {| init_fc1 := init_fc1 params22; init_fc2 := init_fc2 params22;
       init_latent_out := init_latent_out params22;
       init_reward_out := init_reward_out params22;
       init_term_out := layer_init 32 1 0 [-200]%Z |}.

End Binary32.

(** A batch of two latent states with the one-hot encodings of two
    actions, and what [Binary32.delta22] predicts for it. *)
Definition s_batch : Tensor Binary32.float32 :=
  mkTensor [2; 2] (Binary32.of_Z <$> [1; 2; 3; 4]%Z).
Definition a_batch : Tensor Binary32.float32 :=
  mkTensor [2; 2] (Binary32.of_Z <$> [0; 1; 1; 0]%Z).
Definition n_batch : Tensor Binary32.float32 :=
  mkTensor [2; 2] (Binary32.of_Z <$> [2; 4; 4; 6]%Z).
Definition r_batch : Tensor Binary32.float32 :=
  mkTensor [2; 1] (Binary32.of_Z <$> [3; 3]%Z).
Definition t_batch : Tensor Binary32.float32 :=
  torch_sigmoid (mkTensor [2; 1] (Binary32.of_Z <$> [0; 0]%Z)).

(** [LatentDynamicsModel(2, 2, True)] with weights that let every layer
    depend on its input, and two batches of latent states that share
    their first row, [(1/3, 2/7)], and differ in the second. *)
Definition dense22 : LatentDynamicsModel Binary32.float32 :=
  init 2 2 true cpu None
    {| init_fc1 := Binary32.layer_init 4 256 1 (replicate 256 0%Z);
       init_fc2 := Binary32.layer_init 256 32 1 (replicate 32 1%Z);
       init_latent_out := Binary32.layer_init 32 2 1 [1; 2]%Z;
       init_reward_out := Binary32.layer_init 32 1 1 [3]%Z;
       init_term_out := Binary32.layer_init 32 1 (-1) [0]%Z |}.

Definition s_mixed : Tensor Binary32.float32 :=
  mkTensor [2; 2]
    [Binary32.div (Binary32.of_Z 1) (Binary32.of_Z 3);
     Binary32.div (Binary32.of_Z 2) (Binary32.of_Z 7);
     Binary32.of_Z 3; Binary32.of_Z 4].
Definition s_mixed' : Tensor Binary32.float32 :=
  mkTensor [2; 2]
    [Binary32.div (Binary32.of_Z 1) (Binary32.of_Z 3);
     Binary32.div (Binary32.of_Z 2) (Binary32.of_Z 7);
     Binary32.div (Binary32.of_Z 5) (Binary32.of_Z 9); Binary32.of_Z (-6)].

(** * Properties *)

(** ** The error monad *)

Lemma bind_Ok {A B} (f : A → result B) (a : A) : Ok a ≫= f = f a.
Proof. reflexivity. Qed.

Lemma bind_Ok_inv {A B} (f : A → result B) (m : result A) (b : B) :
  m ≫= f = Ok b → ∃ a, m = Ok a ∧ f a = Ok b.
Proof. destruct m as [a|e]; [eauto | discriminate]. Qed.

Lemma fmap_Ok_inv {A B} (f : A → B) (m : result A) (b : B) :
  f <$> m = Ok b → ∃ a, m = Ok a ∧ b = f a.
Proof. destruct m as [a|e]; [intros [= <-]; eauto | discriminate]. Qed.

(** Case analysis on the next call that may raise. *)
Ltac step_result :=
  match goal with
  | |- context [@mbind result _ _ _ _ ?m] =>
      lazymatch m with
      | Ok _ => rewrite bind_Ok
      | _ => destruct m eqn:?; simpl
      end
  | |- context [@fmap result _ _ _ _ ?m] => destruct m eqn:?; simpl
  end.

Section Reading.
Context {F : Type} `{Countable F} `{Scalar F}.
Implicit Types (m : LatentDynamicsModel F) (s a x : Tensor F).

(** [forward] is: concatenate, look up, and on a miss evaluate the
    layers and store. *)
Lemma forward_unfold m s a :
  forward m s a =
    x ← torch_cat s a;
    match memo_lookup m x with
    | Some (n, r, t) => Ok ((n, r, t, true), m)
    | None => v ← network m s x; Ok ((v, false), memo_store m x v)
    end.
Proof.
  unfold forward, network, hidden, memo_lookup, memo_store, Tensor_to.
  destruct (torch_cat s a) as [x|e]; simpl; [|done].
  destruct (if memoize_on m then _ else _) as [[[n r] t]|]; [done|].
  repeat (step_result; try done).
  all: destruct (delta_mode m); simpl; repeat (step_result; try done).
Qed.
End Reading.

(** ** Shapes *)

Lemma unsnoc_app (l : list nat) (w : nat) : unsnoc (l ++ [w]) = Some (l, w).
Proof. induction l as [|d l IH]; simpl; [done | by rewrite IH]. Qed.

Lemma unsnoc_Some (s l : list nat) (w : nat) :
  unsnoc s = Some (l, w) → s = l ++ [w].
Proof.
  revert l; induction s as [|d s IH]; intros l; simpl; [done|].
  destruct (unsnoc s) as [[l' w']|] eqn:E.
  - intros [= <- <-]. simpl. f_equal. by apply IH.
  - intros [= <- <-]. destruct s as [|d' s']; [done|].
    simpl in E. by destruct (unsnoc s') as [[??]|].
Qed.

Lemma broadcast_rev_same (r : list nat) : broadcast_rev r r = Some r.
Proof.
  induction r as [|x r IH]; simpl; [done|].
  rewrite IH. simpl. by rewrite bool_decide_eq_true_2.
Qed.

Lemma broadcast_shapes_same (s : list nat) : broadcast_shapes s s = Some s.
Proof.
  unfold broadcast_shapes. rewrite broadcast_rev_same. simpl.
  by rewrite reverse_involutive.
Qed.

Section Shapes.
Context {F : Type} `{Scalar F}.
Implicit Types (s a x : Tensor F) (l : Linear F).

(** Inputs batched alike concatenate, and the widths add up. *)
Lemma torch_cat_shape s a lead ws wa :
  shape s = lead ++ [ws] → shape a = lead ++ [wa] →
  ∃ x, torch_cat s a = Ok x ∧ shape x = lead ++ [ws + wa].
Proof.
  intros Hs Ha. unfold torch_cat, cat_should_skip.
  rewrite Hs, Ha, !unsnoc_app.
  case_bool_decide as E1.
  - destruct lead as [|d [|??]]; simplify_eq/=.
    case_bool_decide as E2; simplify_eq/=; eauto.
  - case_bool_decide as E2.
    + destruct lead as [|d [|??]]; simplify_eq/=.
      eexists; split; [done|]. rewrite Hs. by rewrite Nat.add_0_r.
    + rewrite bool_decide_eq_true_2 by done. eauto.
Qed.

Lemma torch_cat_zero_dim s a :
  shape s = [] ∨ shape a = [] → torch_cat s a = Raise ZeroDimCat.
Proof.
  unfold torch_cat. intros [-> | ->]; simpl; [done|].
  by destruct (unsnoc (shape s)) as [[??]|].
Qed.

(** Inputs batched differently do not concatenate. *)
Lemma torch_cat_mismatch s a la wa lb wb :
  shape s = la ++ [wa] → shape a = lb ++ [wb] → la ≠ lb →
  shape s ≠ [0] → shape a ≠ [0] →
  torch_cat s a = Raise CatSizeMismatch.
Proof.
  intros Hs Ha Hne Ns Na. unfold torch_cat, cat_should_skip.
  rewrite !bool_decide_eq_false_2 by done.
  rewrite Hs, Ha, !unsnoc_app. by rewrite bool_decide_eq_false_2.
Qed.

(** Widths that differ, none of them 1, do not broadcast. *)
Lemma tensor_add_mismatch s a lead ws wa :
  shape s = lead ++ [ws] → shape a = lead ++ [wa] →
  ws ≠ wa → ws ≠ 1 → wa ≠ 1 →
  tensor_add s a = Raise BroadcastMismatch.
Proof.
  intros Hs Ha N1 N2 N3. unfold tensor_add, broadcast_shapes.
  rewrite Hs, Ha, !reverse_snoc. simpl.
  rewrite broadcast_rev_same. simpl.
  by rewrite !bool_decide_eq_false_2.
Qed.

Lemma Linear_forward_shape l x lead :
  shape x = lead ++ [in_features l] →
  ∃ y, Linear_forward l x = Ok y ∧ shape y = lead ++ [out_features l].
Proof.
  intros Hx. unfold Linear_forward. rewrite Hx, unsnoc_app.
  rewrite bool_decide_eq_true_2 by done. eauto.
Qed.

(** The only check of a layer: the width of the last axis. *)
Lemma Linear_forward_mismatch l x lead w :
  shape x = lead ++ [w] → w ≠ in_features l →
  Linear_forward l x = Raise LinearShapeMismatch.
Proof.
  intros Hx Hw. unfold Linear_forward. rewrite Hx, unsnoc_app.
  by rewrite bool_decide_eq_false_2.
Qed.

Lemma tensor_add_shape a b :
  shape a = shape b → ∃ c, tensor_add a b = Ok c ∧ shape c = shape a.
Proof.
  intros E. unfold tensor_add. rewrite E, broadcast_shapes_same. eauto.
Qed.
End Shapes.

(** ** Data of an element-wise sum *)

Lemma concat_chunks {A} (n w : nat) (d : list A) :
  concat (chunks n w d) = take (n * w) d.
Proof.
  revert d; induction n as [|n IH]; intros d; simpl; [done|].
  by rewrite IH, take_take_drop.
Qed.

Lemma chunks_length_le {A} (n w : nat) (d : list A) :
  Forall (λ c, length c ≤ w) (chunks n w d).
Proof.
  revert d; induction n as [|n IH]; intros d; simpl; constructor; [|done].
  rewrite length_take. lia.
Qed.

Lemma length_chunks {A} (n w : nat) (d : list A) : length (chunks n w d) = n.
Proof. revert d; induction n as [|n IH]; intros d; simpl; [done | by rewrite IH]. Qed.

Lemma length_concat_fmap {A B} (f : A → list B) (k : nat) (rows : list A) :
  (∀ row, length (f row) = k) →
  length (concat (f <$> rows)) = length rows * k.
Proof.
  intros Hf. induction rows as [|row rows IH]; [done|].
  rewrite fmap_cons. change (concat (f row :: (f <$> rows)))
    with (f row ++ concat (f <$> rows)).
  rewrite length_app, Hf, IH. done.
Qed.

Lemma numel_snoc (lead : list nat) (w : nat) :
  numel (lead ++ [w]) = numel lead * w.
Proof.
  unfold numel. induction lead as [|d lead IH]; simpl; [lia|].
  rewrite IH. lia.
Qed.

Section Data.
Context {F : Type} `{Scalar F}.
Implicit Types (a b : Tensor F) (d : list F).

(** Expanding to the shape a tensor already has changes nothing. *)
Lemma expand_same (sh : list nat) d :
  length d ≤ numel sh → expand sh sh d = d.
Proof.
  revert d; induction sh as [|f fs IH]; intros d Hd; simpl; [done|].
  rewrite bool_decide_eq_true_2 by done.
  rewrite (Forall_fmap_ext_1 (expand fs fs) id).
  - rewrite list_fmap_id, concat_chunks. apply take_ge. simpl in Hd. lia.
  - eapply Forall_impl; [apply chunks_length_le|]. intros c Hc. by apply IH.
Qed.

(** On tensors of one shape [+] adds entry by entry. *)
Lemma tensor_add_same_shape a b :
  shape a = shape b → valid a → valid b →
  tensor_add a b = Ok (mkTensor (shape a) (zip_with Fadd (data a) (data b))).
Proof.
  unfold valid, tensor_add. intros E Va Vb.
  rewrite <- E in Vb |- *. rewrite broadcast_shapes_same.
  unfold pad_shape. rewrite Nat.sub_diag. simpl.
  rewrite !expand_same by lia. done.
Qed.

(** A layer with well-formed parameters outputs as many entries as the
    shape of its output announces. *)
Lemma Linear_forward_valid (l : Linear F) (x y : Tensor F) :
  wf_Linear l → Linear_forward l x = Ok y → valid y.
Proof.
  intros (Hw & _ & Hb). unfold Linear_forward, valid.
  destruct (unsnoc (shape x)) as [[lead w]|]; [|done].
  case_bool_decide; [|done]. intros [= <-]. simpl.
  rewrite numel_snoc, (length_concat_fmap _ (out_features l)).
  - by rewrite length_chunks.
  - intros row. unfold affine. rewrite length_zip_with. lia.
Qed.
End Data.

Section Returns.
Context {F : Type} `{Countable F} `{Scalar F}.
Implicit Types (m : LatentDynamicsModel F) (s a x : Tensor F).

Lemma hidden_shape m x d_s d_a lead :
  has_dims m d_s d_a → shape x = lead ++ [d_s + d_a] →
  ∃ h, hidden m x = Ok h ∧ shape h = lead ++ [32].
Proof.
  intros (D1 & D2 & D3 & D4 & _) Hx. unfold hidden.
  destruct (Linear_forward_shape (fc1 m) x lead) as (y1 & -> & S1);
    [by rewrite D1|]. simpl.
  destruct (Linear_forward_shape (fc2 m) (torch_relu y1) lead)
    as (y2 & -> & S2); [by rewrite D3, <- D2|]. simpl.
  eexists; split; [done|]. simpl. by rewrite S2, D4.
Qed.

(** On a raw input of the right width every layer accepts its input; in
    delta mode the latent state must have the width of the state head. *)
Lemma network_returns m s x d_s d_a lead :
  has_dims m d_s d_a →
  (delta_mode m = true → shape s = lead ++ [d_s]) →
  shape x = lead ++ [d_s + d_a] →
  ∃ v, network m s x = Ok v.
Proof.
  intros D Hs Hx. unfold network.
  destruct (hidden_shape m x d_s d_a lead D Hx) as (h & -> & Sh). simpl.
  destruct D as (_ & _ & _ & _ & L1 & L2 & R1 & R2 & T1 & T2).
  destruct (Linear_forward_shape (latent_out m) h lead) as (o & Eo & So);
    [by rewrite L1|].
  destruct (Linear_forward_shape (reward_out m) h lead) as (r & Er & Sr);
    [by rewrite R1|].
  destruct (Linear_forward_shape (term_out m) h lead) as (t & Et & St);
    [by rewrite T1|].
  rewrite Eo, Er, Et.
  destruct (delta_mode m); simpl; [|eauto].
  destruct (tensor_add_shape s o) as (c & -> & _); [|simpl; eauto].
  by rewrite Hs, So, L2.
Qed.

(** [__init__] builds layers of the sizes [has_dims] lists. *)
Lemma init_has_dims d_s d_a delta best dev (params : Initializer F) :
  has_dims (init d_s d_a delta best dev params) d_s d_a.
Proof. repeat split. Qed.

(** The methods of the memo store leave the layers alone. *)
Lemma has_dims_with_memos m M d_s d_a :
  has_dims (with_memos M m) d_s d_a ↔ has_dims m d_s d_a.
Proof. done. Qed.

Lemma has_dims_with_memoize_on m b d_s d_a :
  has_dims (with_memoize_on b m) d_s d_a ↔ has_dims m d_s d_a.
Proof. done. Qed.

(** [forward] returns on every well-shaped query. *)
Lemma forward_returns m s a d_s d_a :
  has_dims m d_s d_a → well_shaped d_s d_a s a →
  ∃ p m', forward m s a = Ok (p, m').
Proof.
  intros D (lead & Hs & Ha). rewrite forward_unfold.
  destruct (torch_cat_shape s a lead d_s d_a Hs Ha) as (x & -> & Hx). simpl.
  destruct (memo_lookup m x) as [[[n r] t]|]; [eauto|].
  destruct (network_returns m s x d_s d_a lead D (λ _, Hs) Hx) as (v & ->).
  simpl. eauto.
Qed.
End Returns.

(** ** Hits and misses *)

Section Memo.
Context {F : Type} `{Countable F} `{Scalar F}.
Implicit Types (m : LatentDynamicsModel F) (s a x : Tensor F).
Implicit Types (v : Triple F) (p : Prediction F).

Lemma forward_hit m s a x n r t :
  torch_cat s a = Ok x → memoize_on m = true →
  memos m !! mkHashedTensor x = Some (n, r, t) →
  forward m s a = Ok ((n, r, t, true), m).
Proof.
  intros Hx Hon Hk. rewrite forward_unfold, Hx. simpl.
  unfold memo_lookup. by rewrite Hon, Hk.
Qed.

Lemma forward_miss m s a x :
  torch_cat s a = Ok x → memo_lookup m x = None →
  forward m s a = v ← network m s x; Ok ((v, false), memo_store m x v).
Proof. intros Hx Hk. rewrite forward_unfold, Hx. simpl. by rewrite Hk. Qed.

(** What a returning call did. *)
Lemma forward_Ok_inv m s a p m' :
  forward m s a = Ok (p, m') →
  ∃ x, torch_cat s a = Ok x ∧
    ((∃ n r t, memo_lookup m x = Some (n, r, t) ∧
               p = (n, r, t, true) ∧ m' = m) ∨
     (∃ v, memo_lookup m x = None ∧ network m s x = Ok v ∧
           p = (v, false) ∧ m' = memo_store m x v)).
Proof.
  rewrite forward_unfold. intros (x & Hx & Hrest)%bind_Ok_inv.
  exists x; split; [done|].
  destruct (memo_lookup m x) as [[[n r] t]|].
  - left. exists n, r, t. by simplify_eq.
  - right. apply bind_Ok_inv in Hrest as (v & Hv & ?).
    exists v. by simplify_eq.
Qed.

Lemma memo_lookup_off m x : memoize_on m = false → memo_lookup m x = None.
Proof. unfold memo_lookup. by intros ->. Qed.

Lemma memo_store_off m x v : memoize_on m = false → memo_store m x v = m.
Proof. unfold memo_store. by intros ->. Qed.

(** With memoization off a returning call is a miss and leaves the
    instance untouched. *)
Lemma forward_off m s a p m' :
  memoize_on m = false → forward m s a = Ok (p, m') →
  p.2 = false ∧ m' = m.
Proof.
  intros Hoff (x & _ & [(n & r & t & Hk & _)|(v & _ & _ & -> & ->)])%forward_Ok_inv.
  - by rewrite memo_lookup_off in Hk.
  - by rewrite memo_store_off.
Qed.

(** With memoization off the store is not consulted. *)
Lemma forward_off_store_irrelevant m s a M :
  memoize_on m = false →
  fst <$> forward (with_memos M m) s a = fst <$> forward m s a.
Proof.
  intros Hoff. rewrite !forward_unfold.
  destruct (torch_cat s a) as [x|e]; simpl; [|done].
  rewrite !memo_lookup_off by done.
  change (network (with_memos M m) s x) with (network m s x).
  by destruct (network m s x).
Qed.

(** With memoization off no sequence of [forward] calls changes the
    instance. *)
Lemma step_forward_off m s a :
  memoize_on m = false → step m (Forward s a) = m.
Proof.
  intros Hoff. simpl. destruct (forward m s a) as [[p m']|e] eqn:E; [|done].
  by destruct (forward_off m s a p m' Hoff E) as [_ ->].
Qed.

Lemma steps_forward_off m (qs : list (Tensor F * Tensor F)) :
  memoize_on m = false → steps m ((λ q, Forward q.1 q.2) <$> qs) = m.
Proof.
  intros Hoff. unfold steps.
  induction qs as [|[s a] qs IH]; [done|].
  rewrite fmap_cons. simpl foldl.
  change (foldl step ?x ?l) with (steps x l) in *.
  fold (step m (Forward s a)). by rewrite step_forward_off.
Qed.

(** An entry survives a returning [forward]: a miss stores under a key
    that was absent. *)
Lemma forward_keeps_entries m s a p m' k v :
  forward m s a = Ok (p, m') → memos m !! k = Some v → memos m' !! k = Some v.
Proof.
  intros (x & _ & [(? & ? & ? & _ & _ & ->)|(w & Hk & _ & _ & ->)])%forward_Ok_inv;
    [done|].
  unfold memo_lookup in Hk. unfold memo_store.
  destruct (memoize_on m); [|done]. simpl. intros Hv.
  rewrite lookup_insert_ne; [done|]. intros <-. congruence.
Qed.

Lemma step_keeps_entries m c k v :
  keeps k c → memos m !! k = Some v → memos (step m c) !! k = Some v.
Proof.
  destruct c as [| |s a ns r t| |s a]; simpl; try done.
  - intros Hne Hv. unfold set_memo.
    destruct (torch_cat s a) as [x|e] eqn:Hx; simpl; [|done].
    rewrite lookup_insert_ne; [done|]. intros <-. by apply Hne.
  - intros _ Hv. destruct (forward m s a) as [[p m']|e] eqn:E; [|done].
    by eapply forward_keeps_entries.
Qed.

Lemma steps_keep_entries m cs k v :
  Forall (keeps k) cs → memos m !! k = Some v →
  memos (steps m cs) !! k = Some v.
Proof.
  unfold steps. intros Hcs. revert m.
  induction Hcs as [|c cs Hc _ IH]; intros m Hv; simpl; [done|].
  by apply IH, step_keeps_entries.
Qed.

(** No call but [clear_memos] removes a key. *)
Lemma step_keeps_keys m c k :
  c ≠ ClearMemos → is_Some (memos m !! k) → is_Some (memos (step m c) !! k).
Proof.
  intros Hc [v Hv].
  destruct c as [| |s a ns r t| |s a]; simpl; try done; try by eexists.
  - unfold set_memo.
    destruct (torch_cat s a) as [x|e] eqn:Hx; simpl; [|by eexists].
    destruct (decide (mkHashedTensor x = k)) as [<-|Hne].
    + rewrite lookup_insert_eq. by eexists.
    + rewrite lookup_insert_ne by done. by eexists.
  - destruct (forward m s a) as [[p m']|e] eqn:E; [|by eexists].
    exists v. by eapply forward_keeps_entries.
Qed.

Lemma steps_keep_keys m cs k :
  Forall (λ c, c ≠ ClearMemos) cs → is_Some (memos m !! k) →
  is_Some (memos (steps m cs) !! k).
Proof.
  unfold steps. intros Hcs. revert m.
  induction Hcs as [|c cs Hc _ IH]; intros m Hv; simpl; [done|].
  by apply IH, step_keeps_keys.
Qed.
End Memo.


(** ** The claims about the memo store *)

Section Claims.
Context {F : Type} `{Countable F} `{Scalar F}.
Implicit Types (m : LatentDynamicsModel F) (s a x : Tensor F).
Implicit Types (v : Triple F) (p : Prediction F).

(** C1.  With memoization on, the first [forward (s, a)] after
    [clear_memos] is a miss (hit flag false), and the call repeated at once
    on the same [(s, a)] is a hit (hit flag true) that returns the very
    triple of the first call and leaves the instance as it is.  The first
    call returns on every well-shaped query. *)
Theorem memo_hit_after_first_call m s a d_s d_a :
  memoize_on m = true →
  (has_dims m d_s d_a → well_shaped d_s d_a s a →
   ∃ p m1, forward (clear_memos m) s a = Ok (p, m1)) ∧
  (∀ n r t hit m1,
     forward (clear_memos m) s a = Ok ((n, r, t, hit), m1) →
     hit = false ∧ forward m1 s a = Ok ((n, r, t, true), m1)).
Proof.
  intros Hon. split.
  - intros D W. by apply (forward_returns _ _ _ d_s d_a).
  - intros n r t hit m1 (x & Hx & Hcase)%forward_Ok_inv.
    destruct Hcase as [(n' & r' & t' & Hk & _)|(v & _ & _ & Hp & ->)].
    + unfold memo_lookup, clear_memos in Hk. simpl in Hk.
      rewrite Hon, lookup_empty in Hk. done.
    + simplify_eq. split; [done|].
      apply (forward_hit _ _ _ x); [done|..];
        unfold memo_store, clear_memos; simpl; rewrite Hon; simpl; [done|].
      by rewrite lookup_insert_eq.
Qed.


(** C4.  After [stop_memoize] the entries are retained; every [forward]
    that returns has hit flag false and leaves the instance as it was (no
    write), and its outcome is the same whatever the store holds (no
    read); on well-shaped queries it does return, and so no sequence of
    [forward] calls changes the instance.  After [start_memoize] an
    entry stored before is reachable again, whatever was called in
    between short of [clear_memos]: the next query on its key is a hit,
    and it returns the stored triple unless [set_memo] replaced it. *)
Theorem stop_memoize_isolates_store m :
  memos (stop_memoize m) = memos m ∧
  (∀ s a p m', forward (stop_memoize m) s a = Ok (p, m') →
     p.2 = false ∧ m' = stop_memoize m) ∧
  (∀ s a M, fst <$> forward (with_memos M (stop_memoize m)) s a
            = fst <$> forward (stop_memoize m) s a) ∧
  (∀ s a d_s d_a, has_dims m d_s d_a → well_shaped d_s d_a s a →
     ∃ n r t, forward (stop_memoize m) s a
              = Ok ((n, r, t, false), stop_memoize m)) ∧
  (∀ qs : list (Tensor F * Tensor F),
     steps (stop_memoize m) ((λ q, Forward q.1 q.2) <$> qs) = stop_memoize m) ∧
  (∀ cs s a x n r t,
     torch_cat s a = Ok x → memos m !! mkHashedTensor x = Some (n, r, t) →
     Forall (keeps (mkHashedTensor x)) cs →
     forward (start_memoize (steps (stop_memoize m) cs)) s a
     = Ok ((n, r, t, true), start_memoize (steps (stop_memoize m) cs))) ∧
  (∀ cs s a x,
     torch_cat s a = Ok x → is_Some (memos m !! mkHashedTensor x) →
     Forall (λ c, c ≠ ClearMemos) cs →
     ∃ n r t,
       forward (start_memoize (steps (stop_memoize m) cs)) s a
       = Ok ((n, r, t, true), start_memoize (steps (stop_memoize m) cs))).
Proof.
  split; [done|]. split; [|split; [|split; [|split; [|split]]]].
  - intros s a p m'. by apply forward_off.
  - intros s a M. by apply forward_off_store_irrelevant.
  - intros s a d_s d_a D W.
    destruct (forward_returns (stop_memoize m) s a d_s d_a D W)
      as ([[[n r] t] hit] & m' & E).
    destruct (forward_off (stop_memoize m) _ _ _ _ eq_refl E) as [Hhit ->].
    simpl in Hhit. subst hit. eauto.
  - intros qs. by apply steps_forward_off.
  - intros cs s a x n r t Hx Hk Hcs.
    apply (forward_hit _ _ _ x); [done..|].
    by apply (steps_keep_entries (stop_memoize m)).
  - intros cs s a x Hx Hk Hcs.
    destruct (steps_keep_keys (stop_memoize m) cs _ Hcs Hk) as [[[n r] t] Hv].
    exists n, r, t. by apply (forward_hit _ _ _ x).
Qed.

(** C5.  [clear_memos] empties the store whatever the mode flag is and
    keeps the flag; afterwards no query is a hit: every [forward] that
    returns has hit flag false, and on well-shaped queries it returns. *)
Theorem clear_memos_then_miss m :
  memos (clear_memos m) = ∅ ∧
  memoize_on (clear_memos m) = memoize_on m ∧
  (∀ s a p m', forward (clear_memos m) s a = Ok (p, m') → p.2 = false) ∧
  (∀ s a d_s d_a, has_dims m d_s d_a → well_shaped d_s d_a s a →
     ∃ n r t m', forward (clear_memos m) s a = Ok ((n, r, t, false), m')).
Proof.
  assert (Hmiss : ∀ s a p m',
            forward (clear_memos m) s a = Ok (p, m') → p.2 = false).
  { intros s a p m' (x & _ & Hcase)%forward_Ok_inv.
    destruct Hcase as [(n & r & t & Hk & _)|(v & _ & _ & -> & _)]; [|done].
    unfold memo_lookup, clear_memos in Hk. simpl in Hk.
    destruct (memoize_on m); [|done]. by rewrite lookup_empty in Hk. }
  split; [done|]. split; [done|]. split; [done|].
  intros s a d_s d_a D W.
  destruct (forward_returns (clear_memos m) s a d_s d_a D W)
    as ([[[n r] t] hit] & m' & E).
  pose proof (Hmiss _ _ _ _ E) as Hhit. simpl in Hhit. subst hit. eauto.
Qed.

(** C7.  With memoization off a call changes nothing in the instance, so
    a second call on the same inputs has the outcome of the first: the
    same prediction and flag, or the same error. *)
Theorem forward_twice_same_result m s a :
  memoize_on m = false →
  step m (Forward s a) = m ∧
  fst <$> forward (step m (Forward s a)) s a = fst <$> forward m s a ∧
  (∀ p m', forward m s a = Ok (p, m') → forward m' s a = Ok (p, m')).
Proof.
  intros Hoff. rewrite step_forward_off by done. split; [done|]. split; [done|].
  intros p m' E. destruct (forward_off _ _ _ _ _ Hoff E) as [_ ->]. done.
Qed.

(** C9.  [set_memo] is a dictionary assignment, and it returns whenever
    the concatenation of its query exists: afterwards the key maps to the
    new triple and to nothing else, every other key keeps its entry, the
    store lists no key twice, and the number of entries is the same when
    the key was present and one more when it was not.  The last write
    wins: a second [set_memo] on the key leaves the store that the second
    one alone leaves, and [forward] with memoization on then returns the
    triple written last.  The assignment on the miss path of [forward] is
    reached only when the key is absent: with the key present [forward]
    returns the stored triple and writes nothing; with the key absent it
    adds the computed triple as one more entry, which a later [set_memo]
    replaces in the same way.  After any sequence of calls the store
    lists no key twice. *)
Theorem memo_insert_replaces_keys_unique m s a x :
  torch_cat s a = Ok x →
  (∀ ns r t, ∃ m1,
     set_memo m s a ns r t = Ok m1 ∧
     memoize_on m1 = memoize_on m ∧
     memos m1 !! mkHashedTensor x = Some (ns, r, t) ∧
     (∀ k, k ≠ mkHashedTensor x → memos m1 !! k = memos m !! k) ∧
     (∀ v, (mkHashedTensor x, v) ∈ map_to_list (memos m1) ↔ v = (ns, r, t)) ∧
     NoDup (map_to_list (memos m1)).*1 ∧
     size (memos m1)
     = match memos m !! mkHashedTensor x with
       | Some _ => size (memos m)
       | None => S (size (memos m))
       end ∧
     forward (start_memoize m1) s a
     = Ok ((ns, r, t, true), start_memoize m1)) ∧
  (∀ ns r t ns' r' t', ∃ m1 m2,
     set_memo m s a ns r t = Ok m1 ∧ set_memo m1 s a ns' r' t' = Ok m2 ∧
     set_memo m s a ns' r' t' = Ok m2 ∧
     size (memos m2) = size (memos m1) ∧
     forward (start_memoize m2) s a
     = Ok ((ns', r', t', true), start_memoize m2)) ∧
  (∀ d_s d_a,
     has_dims m d_s d_a → well_shaped d_s d_a s a → memoize_on m = true →
     match memos m !! mkHashedTensor x with
     | Some v => forward m s a = Ok ((v, true), m)
     | None =>
         ∃ n r t m1,
           forward m s a = Ok ((n, r, t, false), m1) ∧
           memos m1 !! mkHashedTensor x = Some (n, r, t) ∧
           (∀ k, k ≠ mkHashedTensor x → memos m1 !! k = memos m !! k) ∧
           size (memos m1) = S (size (memos m)) ∧
           ∀ ns' r' t', ∃ m2,
             set_memo m1 s a ns' r' t' = Ok m2 ∧
             size (memos m2) = size (memos m1) ∧
             forward m2 s a = Ok ((ns', r', t', true), m2)
     end) ∧
  (∀ cs, NoDup (map_to_list (memos (steps m cs))).*1).
Proof.
  intros Hx.
  assert (Hset : ∀ m0 ns r t,
            set_memo m0 s a ns r t
            = Ok (with_memos (<[mkHashedTensor x := (ns, r, t)]> (memos m0)) m0)).
  { intros m0 ns r t. unfold set_memo. by rewrite Hx. }
  assert (Hhit : ∀ m0 ns r t, memoize_on m0 = true →
            forward (with_memos (<[mkHashedTensor x := (ns, r, t)]> (memos m0)) m0)
              s a
            = Ok ((ns, r, t, true),
                  with_memos (<[mkHashedTensor x := (ns, r, t)]> (memos m0)) m0)).
  { intros m0 ns r t Hon. apply (forward_hit _ _ _ x); [done..|].
    simpl. by rewrite lookup_insert_eq. }
  split; [|split; [|split]].
  - intros ns r t. eexists. split; [apply Hset|]. simpl.
    split; [done|]. split; [by rewrite lookup_insert_eq|].
    split; [intros k Hk; by rewrite lookup_insert_ne|].
    split.
    { intros v. rewrite elem_of_map_to_list, lookup_insert_eq.
      split; [by intros [= <-] | by intros ->]. }
    split; [apply NoDup_fst_map_to_list|].
    split; [by rewrite map_size_insert; destruct (memos m !! _)|].
    by apply (Hhit (start_memoize m)).
  - intros ns r t ns' r' t'. do 2 eexists.
    split; [apply Hset|]. split; [apply Hset|]. simpl.
    split; [by rewrite Hset, insert_insert_eq|].
    split; [by rewrite map_size_insert, lookup_insert_eq|].
    by apply (Hhit (start_memoize (with_memos _ m))).
  - intros d_s d_a D W Hon.
    destruct (memos m !! mkHashedTensor x) as [[[n r] t]|] eqn:Hk.
    + by apply (forward_hit _ _ _ x).
    + destruct (forward_returns m s a d_s d_a D W) as (p & m1 & E).
      pose proof E as (x' & Hx' & Hcase)%forward_Ok_inv.
      assert (x' = x) as -> by congruence.
      unfold memo_lookup, memo_store in Hcase. rewrite Hon in Hcase.
      destruct Hcase as [(? & ? & ? & Hk' & _)|(v & _ & _ & -> & ->)];
        [congruence|].
      destruct v as [[n r] t]. exists n, r, t. eexists.
      split; [exact E|]. simpl.
      split; [by rewrite lookup_insert_eq|].
      split; [intros k Hne; by rewrite lookup_insert_ne|].
      split; [by apply map_size_insert_None|].
      intros ns' r' t'. eexists. split; [apply Hset|]. simpl.
      split; [by rewrite map_size_insert, lookup_insert_eq|].
      by apply (Hhit (with_memos _ m)).
  - intros cs. apply NoDup_fst_map_to_list.
Qed.

(** C10.  [run] is [forward]: same prediction, same flag, same error, and
    the same instance afterwards, on every input. *)
Theorem run_is_forward m s a : run m s a = forward m s a.
Proof. reflexivity. Qed.

(** C2, amended.  On every call that is not a memo hit the returned next
    latent state is, in delta mode, the input latent state plus the raw
    output of the state head, and otherwise that output itself.  On a
    well-shaped query the head's output has the shape of the latent state
    and the sum is taken entry by entry. *)
Theorem forward_next_state_on_miss m s a n r t m' :
  forward m s a = Ok ((n, r, t, false), m') →
  ∃ x o, torch_cat s a = Ok x ∧ state_head m x = Ok o ∧
    (if delta_mode m then tensor_add s o = Ok n else n = o) ∧
    (∀ d_s d_a,
       has_dims m d_s d_a → well_shaped d_s d_a s a →
       wf_Linear (latent_out m) → valid s → delta_mode m = true →
       shape o = shape s ∧
       n = mkTensor (shape s) (zip_with Fadd (data s) (data o))).
Proof.
  intros (x & Hx & Hcase)%forward_Ok_inv.
  destruct Hcase as [(? & ? & ? & _ & ? & _)|(v & _ & Hv & Hp & _)]; [done|].
  simplify_eq. exists x. unfold network in Hv. unfold state_head.
  destruct (hidden m x) as [h|e] eqn:Hh; simpl in *; [|done].
  destruct (Linear_forward (latent_out m) h) as [o|e] eqn:Ho;
    [|by destruct (delta_mode m)].
  exists o. do 2 (split; [done|]).
  destruct (delta_mode m) eqn:Hd; simpl in Hv.
  - apply bind_Ok_inv in Hv as (n' & Hn & Hv).
    assert (n' = n) as ->.
    { repeat (apply bind_Ok_inv in Hv as (? & _ & Hv)). by simplify_eq. }
    split; [done|]. intros d_s d_a D (lead & Ss & Sa) Wf Vs _.
    destruct (torch_cat_shape s a lead d_s d_a Ss Sa) as (x' & Hx' & Sx).
    assert (x' = x) as -> by congruence.
    destruct (hidden_shape m x d_s d_a lead D Sx) as (h' & Hh' & Sh).
    assert (h' = h) as -> by congruence.
    destruct D as (_ & _ & _ & _ & L1 & L2 & _).
    destruct (Linear_forward_shape (latent_out m) h lead) as (o' & Ho' & So);
      [by rewrite L1|].
    assert (o' = o) as -> by congruence.
    assert (Es : shape s = shape o) by (by rewrite Ss, So, L2).
    split; [done|].
    rewrite tensor_add_same_shape in Hn;
      [by simplify_eq | done | done | by eapply Linear_forward_valid].
  - assert (o = n) as ->.
    { repeat (apply bind_Ok_inv in Hv as (? & _ & Hv)). by simplify_eq. }
    split; [done|]. intros ?????? [=].
Qed.

(** On a miss the reward is the raw output of the reward head and the
    termination is the logistic function applied to each entry of the
    output of the termination head. *)
Lemma forward_reward_termination_on_miss m s a n r t m' :
  forward m s a = Ok ((n, r, t, false), m') →
  ∃ x o, torch_cat s a = Ok x ∧ reward_head m x = Ok r ∧
    term_head m x = Ok o ∧ t = torch_sigmoid o ∧
    shape t = shape o ∧ data t = Fsigmoid <$> data o.
Proof.
  intros (x & Hx & Hcase)%forward_Ok_inv.
  destruct Hcase as [(? & ? & ? & _ & ? & _)|(v & _ & Hv & Hp & _)]; [done|].
  simplify_eq. exists x. unfold network in Hv. unfold reward_head, term_head.
  destruct (hidden m x) as [h|e]; simpl in *; [|done].
  apply bind_Ok_inv in Hv as (n' & _ & Hv).
  apply bind_Ok_inv in Hv as (r' & Hr & Hv).
  apply bind_Ok_inv in Hv as (t' & (o & Ho & ->)%fmap_Ok_inv & Hv).
  simplify_eq. by exists o.
Qed.

(** C8, amended.  [forward] raises a shape error, which it does not
    catch, whenever the concatenation fails (a 0-dimensional input, or
    inputs batched differently); on a query that is not a memo hit,
    whenever the two widths do not sum to [d_s + d_a]; and in delta mode,
    on a query that is not a hit, when the latent width is neither [d_s]
    nor 1 (nor [d_s] is 1).  The two widths are not checked one by one:
    with delta mode off, inputs whose widths sum to [d_s + d_a] are
    accepted, and a memo hit returns the stored triple unchecked. *)
Theorem forward_shape_errors m s a d_s d_a :
  has_dims m d_s d_a →
  (∀ e, torch_cat s a = Raise e → forward m s a = Raise e) ∧
  (shape s = [] ∨ shape a = [] → forward m s a = Raise ZeroDimCat) ∧
  (∀ la wa lb wb,
     shape s = la ++ [wa] → shape a = lb ++ [wb] → la ≠ lb →
     shape s ≠ [0] → shape a ≠ [0] →
     forward m s a = Raise CatSizeMismatch) ∧
  (∀ lead ws wa,
     shape s = lead ++ [ws] → shape a = lead ++ [wa] →
     (∀ x, torch_cat s a = Ok x → memo_lookup m x = None) →
     ws + wa ≠ d_s + d_a →
     forward m s a = Raise LinearShapeMismatch) ∧
  (∀ lead ws wa,
     shape s = lead ++ [ws] → shape a = lead ++ [wa] →
     (∀ x, torch_cat s a = Ok x → memo_lookup m x = None) →
     ws + wa = d_s + d_a → delta_mode m = true →
     ws ≠ d_s → ws ≠ 1 → d_s ≠ 1 →
     forward m s a = Raise BroadcastMismatch) ∧
  (∀ lead ws wa,
     shape s = lead ++ [ws] → shape a = lead ++ [wa] →
     ws + wa = d_s + d_a → delta_mode m = false →
     ∃ p m', forward m s a = Ok (p, m')) ∧
  (∀ x n r t,
     torch_cat s a = Ok x → memo_lookup m x = Some (n, r, t) →
     forward m s a = Ok ((n, r, t, true), m)).
Proof.
  intros D. split; [|split; [|split; [|split; [|split; [|split]]]]].
  - intros e He. by rewrite forward_unfold, He.
  - intros Hz. by rewrite forward_unfold, torch_cat_zero_dim.
  - intros la wa lb wb Hs Ha Hne Ns Na.
    by rewrite forward_unfold, (torch_cat_mismatch s a la wa lb wb).
  - intros lead ws wa Hs Ha Hmiss Hw.
    destruct (torch_cat_shape s a lead ws wa Hs Ha) as (x & Hx & Sx).
    rewrite (forward_miss m s a x) by auto.
    unfold network, hidden.
    rewrite (Linear_forward_mismatch (fc1 m) x lead (ws + wa)); [done..|].
    destruct D as (-> & _). done.
  - intros lead ws wa Hs Ha Hmiss Hw Hd N1 N2 N3.
    destruct (torch_cat_shape s a lead ws wa Hs Ha) as (x & Hx & Sx).
    rewrite (forward_miss m s a x) by auto.
    rewrite Hw in Sx.
    destruct (hidden_shape m x d_s d_a lead D Sx) as (h & Hh & Sh).
    unfold network. rewrite Hh, Hd. simpl.
    destruct D as (_ & _ & _ & _ & L1 & L2 & _).
    destruct (Linear_forward_shape (latent_out m) h lead) as (o & -> & So);
      [by rewrite L1|]. simpl.
    rewrite (tensor_add_mismatch s o lead ws d_s);
      [done | done | by rewrite So, L2 | done..].
  - intros lead ws wa Hs Ha Hw Hd.
    destruct (torch_cat_shape s a lead ws wa Hs Ha) as (x & Hx & Sx).
    rewrite forward_unfold, Hx. simpl.
    destruct (memo_lookup m x) as [[[n r] t]|]; [eauto|].
    rewrite Hw in Sx.
    destruct (network_returns m s x d_s d_a lead D) as (v & ->);
      [by rewrite Hd | done | simpl; eauto].
  - intros x n r t Hx Hk. rewrite forward_unfold, Hx. simpl. by rewrite Hk.
Qed.
End Claims.

(** ** The model at work in single precision *)

Import Binary32.

(** The networks of [absolute22] and [delta22] on [(s0, a0)]: the state
    head outputs [(1, 2)], the reward head 3, the termination head 0. *)
Example absolute22_forward :
  forward absolute22 s0 a0
  = Ok ((vec [1; 2]%Z, vec [3]%Z, torch_sigmoid (vec [0]%Z), false), absolute22).
Proof. vm_compute. reflexivity. Qed.

Example delta22_forward :
  forward delta22 s0 a0
  = Ok ((vec [2; 4]%Z, vec [3]%Z, torch_sigmoid (vec [0]%Z), false), delta22).
Proof. vm_compute. reflexivity. Qed.

(** The life cycle of the store on [(s0, a0)]: a second call hits, a
    stopped instance recomputes, a restarted one finds the seeded entry
    again, and a cleared one does not. *)
Example second_call_hits :
  fst <$> forward (step (start_memoize delta22) (Forward s0 a0)) s0 a0
  = Ok (vec [2; 4]%Z, vec [3]%Z, torch_sigmoid (vec [0]%Z), true).
Proof. vm_compute. reflexivity. Qed.

Example stopped_call_misses :
  fst <$> forward (stop_memoize seeded22) s0 a0
  = Ok (vec [2; 4]%Z, vec [3]%Z, torch_sigmoid (vec [0]%Z), false).
Proof. vm_compute. reflexivity. Qed.

Example restarted_call_hits :
  fst <$> forward (start_memoize (stop_memoize seeded22)) s0 a0
  = Ok (vec [7; 7]%Z, vec [0]%Z, vec [0]%Z, true).
Proof. vm_compute. reflexivity. Qed.

Example cleared_call_misses :
  fst <$> forward (clear_memos seeded22) s0 a0
  = Ok (vec [2; 4]%Z, vec [3]%Z, torch_sigmoid (vec [0]%Z), false).
Proof. vm_compute. reflexivity. Qed.

(** The arithmetic on a few values: [e] and 1/2 to the last bit, and the
    logistic function at 1. *)
Example exp_one : exp one = S754_finite false 11401300 (-22).
Proof. vm_compute. reflexivity. Qed.

Example sigmoid_zero : sigmoid zero = S754_finite false 8388608 (-24).
Proof. vm_compute. reflexivity. Qed.

Example sigmoid_one : sigmoid one = S754_finite false 12265128 (-24).
Proof. vm_compute. reflexivity. Qed.

Lemma has_dims_init22 delta : has_dims (init 2 2 delta cpu None params22) 2 2.
Proof. apply init_has_dims. Qed.

(** C1 at [delta22] with memoization on and the query [(s0, a0)]. *)
Lemma memo_hit_after_first_call_witness :
  memoize_on (start_memoize delta22) = true ∧
  has_dims (start_memoize delta22) 2 2 ∧ well_shaped 2 2 s0 a0 ∧
  ∃ n r t m1,
    forward (clear_memos (start_memoize delta22)) s0 a0
      = Ok ((n, r, t, false), m1) ∧
    forward m1 s0 a0 = Ok ((n, r, t, true), m1).
Proof.
  assert (D : has_dims (start_memoize delta22) 2 2) by repeat split.
  assert (W : well_shaped 2 2 s0 a0) by (by exists []).
  split; [reflexivity|]. split; [exact D|]. split; [exact W|].
  destruct (memo_hit_after_first_call (start_memoize delta22) s0 a0 2 2 eq_refl)
    as [Hret Hflag].
  destruct (Hret D W) as ([[[n r] t] hit] & m1 & E).
  destruct (Hflag n r t hit m1 E) as [-> E2].
  exists n, r, t, m1. split; [exact E | exact E2].
Defined.

(** C7 at [delta22], where memoization is off. *)
Lemma forward_twice_same_result_witness :
  memoize_on delta22 = false ∧
  fst <$> forward (step delta22 (Forward s0 a0)) s0 a0
    = fst <$> forward delta22 s0 a0.
Proof.
  split; [reflexivity|].
  exact (proj1 (proj2 (forward_twice_same_result delta22 s0 a0 eq_refl))).
Defined.

(** C2 as stated fails on a hit: in delta mode, with the store seeded
    for [(s0, a0)], [forward] returns the seeded next state [(7, 7)], while
    the latent state plus the output of the state head is [(2, 4)]. *)
Lemma seeded_hit_is_not_the_sum :
  delta_mode seeded22 = true ∧
  fst <$> forward seeded22 s0 a0
    = Ok (vec [7; 7]%Z, vec [0]%Z, vec [0]%Z, true) ∧
  torch_cat s0 a0 = Ok (vec [1; 2; 0; 1]%Z) ∧
  state_head seeded22 (vec [1; 2; 0; 1]%Z) = Ok (vec [1; 2]%Z) ∧
  tensor_add s0 (vec [1; 2]%Z) = Ok (vec [2; 4]%Z) ∧
  vec [2; 4]%Z ≠ vec [7; 7]%Z.
Proof.
  split; [reflexivity|].
  split; [vm_compute; reflexivity|].
  split; [vm_compute; reflexivity|].
  split; [vm_compute; reflexivity|].
  split; [vm_compute; reflexivity|].
  vm_compute. discriminate.
Qed.

(** The amended C2 at the miss of [delta22] on [(s0, a0)]. *)
Lemma forward_next_state_on_miss_witness :
  forward delta22 s0 a0
    = Ok ((vec [2; 4]%Z, vec [3]%Z, torch_sigmoid (vec [0]%Z), false), delta22) ∧
  ∃ x o, torch_cat s0 a0 = Ok x ∧ state_head delta22 x = Ok o ∧
    tensor_add s0 o = Ok (vec [2; 4]%Z).
Proof.
  assert (E : forward delta22 s0 a0
    = Ok ((vec [2; 4]%Z, vec [3]%Z, torch_sigmoid (vec [0]%Z), false), delta22))
    by (vm_compute; reflexivity).
  split; [exact E|].
  destruct (forward_next_state_on_miss delta22 s0 a0 _ _ _ _ E)
    as (x & o & Hx & Ho & Hsum & _).
  exists x, o. split; [exact Hx|]. split; [exact Ho | exact Hsum].
Defined.

(** C8 as stated fails: [absolute22] was built for widths 2 and 2; on a
    latent state of width 3 and an action of width 1 [forward] raises
    nothing and returns a prediction. *)
Lemma widths_not_checked_one_by_one :
  has_dims absolute22 2 2 ∧
  shape s3 = [3] ∧ shape a1 = [1] ∧ 3 ≠ 2 ∧ 1 ≠ 2 ∧
  forward absolute22 s3 a1
    = Ok ((vec [1; 2]%Z, vec [3]%Z, torch_sigmoid (vec [0]%Z), false), absolute22) ∧
  ∀ e, forward absolute22 s3 a1 ≠ Raise e.
Proof.
  assert (E : forward absolute22 s3 a1
    = Ok ((vec [1; 2]%Z, vec [3]%Z, torch_sigmoid (vec [0]%Z), false), absolute22))
    by (vm_compute; reflexivity).
  split; [apply has_dims_init22|].
  do 4 (split; [done|]). split; [exact E|].
  intros e. rewrite E. discriminate.
Qed.

(** The amended C8 at [absolute22]: widths 3 and 2 sum to 5, not 4, and
    the first layer rejects the concatenation. *)
Lemma forward_shape_errors_witness :
  has_dims absolute22 2 2 ∧
  forward absolute22 s3 a0 = Raise LinearShapeMismatch.
Proof.
  split; [apply has_dims_init22|].
  destruct (forward_shape_errors absolute22 s3 a0 2 2 (has_dims_init22 false))
    as (_ & _ & _ & Hwidth & _).
  apply (Hwidth [] 3 2); [reflexivity | reflexivity | | lia].
  intros x _. reflexivity.
Defined.

(** C9 at [seeded22], whose store holds an entry for [(s0, a0)]:
    [set_memo] on that query replaces the entry, the store keeps its one
    entry, and [forward] returns the triple written last. *)
Lemma memo_insert_replaces_keys_unique_witness :
  memos seeded22 !! mkHashedTensor (vec [1; 2; 0; 1]%Z)
    = Some (vec [7; 7]%Z, vec [0]%Z, vec [0]%Z) ∧
  size (memos seeded22) = 1 ∧
  ∃ m1,
    set_memo seeded22 s0 a0 (vec [9; 9]%Z) (vec [1]%Z) (vec [1]%Z) = Ok m1 ∧
    memos m1 !! mkHashedTensor (vec [1; 2; 0; 1]%Z)
      = Some (vec [9; 9]%Z, vec [1]%Z, vec [1]%Z) ∧
    size (memos m1) = 1 ∧
    forward (start_memoize m1) s0 a0
    = Ok ((vec [9; 9]%Z, vec [1]%Z, vec [1]%Z, true), start_memoize m1).
Proof.
  assert (Hx : torch_cat s0 a0 = Ok (vec [1; 2; 0; 1]%Z)) by reflexivity.
  assert (Hk : memos seeded22 !! mkHashedTensor (vec [1; 2; 0; 1]%Z)
               = Some (vec [7; 7]%Z, vec [0]%Z, vec [0]%Z))
    by (vm_compute; reflexivity).
  assert (Hs : size (memos seeded22) = 1) by (vm_compute; reflexivity).
  split; [exact Hk|]. split; [exact Hs|].
  destruct (proj1 (memo_insert_replaces_keys_unique seeded22 s0 a0 _ Hx)
              (vec [9; 9]%Z) (vec [1]%Z) (vec [1]%Z))
    as (m1 & E & _ & Hl & _ & _ & _ & Hsz & Hf).
  exists m1. split; [exact E|]. split; [exact Hl|]. split; [|exact Hf].
  rewrite Hsz, Hk. exact Hs.
Defined.

(** ** Rounding in single precision *)

Section SinglePrecision.
Local Open Scope Z_scope.

(** *** Digits *)

Lemma digits2_pos_size (p : positive) : digits2_pos p = Pos.size p.
Proof. induction p; simpl; congruence. Qed.

Lemma digits2_pos_bounds (p : positive) :
  2 ^ (Zpos (digits2_pos p) - 1) <= Zpos p < 2 ^ Zpos (digits2_pos p).
Proof.
  rewrite digits2_pos_size.
  pose proof (Pos.size_gt p) as Hgt. pose proof (Pos.size_le p) as Hle.
  apply Pos2Z.pos_lt_pos in Hgt. apply Pos2Z.pos_le_pos in Hle.
  rewrite Pos2Z.inj_pow in Hgt, Hle.
  split; [|exact Hgt].
  replace (Zpos (Pos.size p)) with (1 + (Zpos (Pos.size p) - 1)) in Hle by lia.
  rewrite Z.pow_add_r in Hle by lia. lia.
Qed.

(** [m < 2 ^ k] bounds the number of digits of [m]. *)
Lemma Zdigits2_le (m k : Z) : 0 <= m -> 0 <= k -> m < 2 ^ k -> Zdigits2 m <= k.
Proof.
  intros Hm Hk Hlt. destruct m as [|p|p]; simpl; [lia| |lia].
  destruct (Z.le_gt_cases (Zpos (digits2_pos p)) k) as [|Hgt]; [done|].
  pose proof (digits2_pos_bounds p) as [Hlo _].
  assert (2 ^ k <= 2 ^ (Zpos (digits2_pos p) - 1)) by (apply Z.pow_le_mono_r; lia).
  lia.
Qed.

Lemma Zdigits2_gt (m k : Z) : 0 <= k -> 2 ^ k <= m -> k < Zdigits2 m.
Proof.
  intros Hk Hle. assert (0 < 2 ^ k) by (apply Z.pow_pos_nonneg; lia).
  destruct m as [|p|p]; simpl; [lia| |lia].
  destruct (Z.lt_ge_cases k (Zpos (digits2_pos p))) as [|Hge]; [done|].
  pose proof (digits2_pos_bounds p) as [_ Hhi].
  assert (2 ^ Zpos (digits2_pos p) <= 2 ^ k) by (apply Z.pow_le_mono_r; lia).
  lia.
Qed.

(** *** Shifting right *)

Lemma shr_1_m (mrs : shr_record) :
  0 <= shr_m mrs -> shr_m (shr_1 mrs) = shr_m mrs / 2.
Proof.
  destruct mrs as [m r s]. simpl. intros Hm.
  destruct m as [|[p|p|]|p]; simpl shr_m; try lia.
  - reflexivity.
  - apply (Z.div_unique_pos _ _ _ 1); lia.
  - apply (Z.div_unique_pos _ _ _ 0); lia.
  - reflexivity.
Qed.

Lemma iter_pos_shr_1_m (p : positive) (mrs : shr_record) :
  0 <= shr_m mrs ->
  shr_m (SpecFloat.iter_pos shr_1 p mrs) = shr_m mrs / 2 ^ Zpos p.
Proof.
  revert mrs. induction p as [p IH|p IH|]; intros mrs Hm; simpl SpecFloat.iter_pos.
  - assert (H1 : 0 <= shr_m (shr_1 mrs)).
    { rewrite shr_1_m by done. apply Z.div_pos; lia. }
    assert (H2 : 0 <= shr_m (SpecFloat.iter_pos shr_1 p (shr_1 mrs))).
    { rewrite IH by done. apply Z.div_pos; [done|]. apply Z.pow_pos_nonneg; lia. }
    rewrite IH, IH, shr_1_m by done.
    assert (0 < 2 ^ Zpos p) by (apply Z.pow_pos_nonneg; lia).
    rewrite !Z.div_div by lia.
    replace (Zpos p~1) with (1 + Zpos p + Zpos p) by lia.
    rewrite !Z.pow_add_r by lia. f_equal. lia.
  - assert (H2 : 0 <= shr_m (SpecFloat.iter_pos shr_1 p mrs)).
    { rewrite IH by done. apply Z.div_pos; [done|]. apply Z.pow_pos_nonneg; lia. }
    rewrite IH, IH by done.
    assert (0 < 2 ^ Zpos p) by (apply Z.pow_pos_nonneg; lia).
    rewrite !Z.div_div by lia.
    replace (Zpos p~0) with (Zpos p + Zpos p) by lia.
    rewrite !Z.pow_add_r by lia. f_equal.
  - by apply shr_1_m.
Qed.

(** What [shr_fexp] does to a mantissa that is not negative: a shift by
    [n] positions when [n] is positive, nothing otherwise. *)
Lemma shr_fexp_spec (m e : Z) (l : location) :
  0 <= m ->
  let n := fexp prec emax (Zdigits2 m + e) - e in
  let '(mrs, e') := shr_fexp prec emax m e l in
  (0 < n /\ shr_m mrs = m / 2 ^ n /\ e' = e + n) \/
  (n <= 0 /\ mrs = shr_record_of_loc m l /\ e' = e).
Proof.
  intros Hm n. unfold shr_fexp, shr. fold n.
  assert (Hrec : shr_m (shr_record_of_loc m l) = m) by (by destruct l as [|[]]).
  destruct n as [|p|p] eqn:En.
  - right. done.
  - left. split; [lia|]. split; [|done].
    rewrite iter_pos_shr_1_m by (by rewrite Hrec). by rewrite Hrec.
  - right. split; [lia|done].
Qed.

Lemma fexp32 (e : Z) : fexp prec emax e = Z.max (e - 24) (-149).
Proof. reflexivity. Qed.

Lemma shr_m_of_loc (m : Z) (l : location) : shr_m (shr_record_of_loc m l) = m.
Proof. by destruct l as [|[]]. Qed.

(** A mantissa below [2 ^ (- e)], that is a value below 1, stays below
    after [shr_fexp]. *)
Lemma shr_fexp_lt1 (m e : Z) (l : location) (mrs : shr_record) (e' : Z) :
  0 <= m -> e <= 0 -> m < 2 ^ (- e) ->
  shr_fexp prec emax m e l = (mrs, e') ->
  0 <= shr_m mrs /\ e' <= 0 /\ shr_m mrs < 2 ^ (- e').
Proof.
  intros Hm He Hlt E. pose proof (shr_fexp_spec m e l Hm) as S.
  rewrite E in S. simpl in S.
  assert (Hd : Zdigits2 m <= - e) by (apply Zdigits2_le; lia).
  rewrite fexp32 in S.
  destruct S as [(Hn & -> & ->)|(Hn & -> & ->)].
  - set (n := Z.max (Zdigits2 m + e - 24) (-149) - e) in *.
    assert (0 < 2 ^ n) by (apply Z.pow_pos_nonneg; lia).
    split; [apply Z.div_pos; lia|]. split; [lia|].
    apply Z.div_lt_upper_bound; [lia|].
    rewrite <- Z.pow_add_r by lia. by replace (n + - (e + n)) with (- e) by lia.
  - by rewrite shr_m_of_loc.
Qed.

Lemma shr_fexp_le1 (m e : Z) (l : location) (mrs : shr_record) (e' : Z) :
  0 <= m -> e <= 0 -> m <= 2 ^ (- e) ->
  shr_fexp prec emax m e l = (mrs, e') ->
  0 <= shr_m mrs /\ e' <= 0 /\ shr_m mrs <= 2 ^ (- e').
Proof.
  intros Hm He Hle E. pose proof (shr_fexp_spec m e l Hm) as S.
  rewrite E in S. simpl in S.
  assert (Hd : Zdigits2 m <= - e + 1).
  { apply Zdigits2_le; [lia..|]. rewrite Z.pow_add_r by lia. lia. }
  rewrite fexp32 in S.
  destruct S as [(Hn & -> & ->)|(Hn & -> & ->)].
  - set (n := Z.max (Zdigits2 m + e - 24) (-149) - e) in *.
    assert (0 < 2 ^ n) by (apply Z.pow_pos_nonneg; lia).
    split; [apply Z.div_pos; lia|]. split; [lia|].
    apply Z.div_le_upper_bound; [lia|].
    rewrite <- Z.pow_add_r by lia. by replace (n + - (e + n)) with (- e) by lia.
  - by rewrite shr_m_of_loc.
Qed.

(** A positive mantissa of value at least 1 stays so after [shr_fexp]. *)
Lemma shr_fexp_ge1 (m e : Z) (l : location) (mrs : shr_record) (e' : Z) :
  1 <= m -> (e <= 0 -> 2 ^ (- e) <= m) ->
  shr_fexp prec emax m e l = (mrs, e') ->
  1 <= shr_m mrs /\ (e' <= 0 -> 2 ^ (- e') <= shr_m mrs).
Proof.
  intros Hm Hge E. pose proof (shr_fexp_spec m e l ltac:(lia)) as S.
  rewrite E in S. simpl in S. rewrite fexp32 in S.
  destruct S as [(Hn & -> & ->)|(Hn & -> & ->)]; [|by rewrite shr_m_of_loc].
  set (d := Zdigits2 m) in *.
  set (n := Z.max (d + e - 24) (-149) - e) in *.
  assert (Hpow : 0 < 2 ^ n) by (apply Z.pow_pos_nonneg; lia).
  assert (Hmn : 2 ^ n <= m).
  { destruct (Z.le_gt_cases (-149) (d + e - 24)) as [Hnorm|Hsub].
    - assert (n = d - 24) as -> by lia.
      destruct m as [|p|p]; try lia. unfold d. simpl Zdigits2.
      pose proof (digits2_pos_bounds p) as [Hlo _].
      etrans; [|exact Hlo]. apply Z.pow_le_mono_r; lia.
    - assert (n = -149 - e) as -> by lia.
      etrans; [|apply Hge; lia]. apply Z.pow_le_mono_r; lia. }
  split.
  - apply Z.div_le_lower_bound; lia.
  - intros He'. apply Z.div_le_lower_bound; [lia|].
    rewrite <- Z.pow_add_r by lia.
    replace (n + - (e + n)) with (- e) by lia. apply Hge. lia.
Qed.

Lemma round_nearest_even_bounds (m : Z) (l : location) :
  m <= round_nearest_even m l <= m + 1.
Proof. destruct l as [|[]]; simpl; try lia. destruct (Z.even m); lia. Qed.

(** *** Rounding *)

Lemma binary_round_aux_nonneg (m e : Z) (l : location) :
  0 <= m -> nonneg_float (binary_round_aux prec emax false m e l).
Proof.
  intros Hm. unfold binary_round_aux.
  destruct (shr_fexp prec emax m e l) as [mrs1 e1] eqn:E1.
  pose proof (shr_fexp_spec m e l Hm) as S1. rewrite E1 in S1. simpl in S1.
  assert (H1 : 0 <= shr_m mrs1).
  { destruct S1 as [(Hn & -> & _)|(_ & -> & _)].
    - apply Z.div_pos; [lia|]. apply Z.pow_pos_nonneg; lia.
    - by rewrite shr_m_of_loc. }
  set (m2 := round_nearest_even (shr_m mrs1) (loc_of_shr_record mrs1)).
  assert (H2 : 0 <= m2).
  { pose proof (round_nearest_even_bounds (shr_m mrs1) (loc_of_shr_record mrs1)).
    unfold m2. lia. }
  destruct (shr_fexp prec emax m2 e1 loc_Exact) as [mrs2 e2] eqn:E2.
  pose proof (shr_fexp_spec m2 e1 loc_Exact H2) as S2. rewrite E2 in S2.
  simpl in S2.
  assert (H3 : 0 <= shr_m mrs2).
  { destruct S2 as [(Hn & -> & _)|(_ & -> & _)]; [|done].
    apply Z.div_pos; [lia|]. apply Z.pow_pos_nonneg; lia. }
  destruct (shr_m mrs2) as [|p|p]; [done| |lia].
  by destruct (e2 <=? emax - prec).
Qed.

(** Rounding a value below 1 gives at most 1. *)
Lemma binary_round_aux_lt1 (m e : Z) (l : location) :
  0 <= m -> e <= 0 -> m < 2 ^ (- e) ->
  in_unit_interval (binary_round_aux prec emax false m e l).
Proof.
  intros Hm He Hlt. unfold binary_round_aux.
  destruct (shr_fexp prec emax m e l) as [mrs1 e1] eqn:E1.
  destruct (shr_fexp_lt1 m e l mrs1 e1 Hm He Hlt E1) as (H1 & He1 & Hlt1).
  set (m2 := round_nearest_even (shr_m mrs1) (loc_of_shr_record mrs1)).
  pose proof (round_nearest_even_bounds (shr_m mrs1) (loc_of_shr_record mrs1))
    as Hr. fold m2 in Hr.
  destruct (shr_fexp prec emax m2 e1 loc_Exact) as [mrs2 e2] eqn:E2.
  destruct (shr_fexp_le1 m2 e1 loc_Exact mrs2 e2) as (H3 & He2 & Hle3);
    [lia | lia | lia | done |].
  destruct (shr_m mrs2) as [|p|p]; [done| |lia].
  rewrite (proj2 (Z.leb_le e2 (emax - prec))) by (unfold emax, prec; lia).
  done.
Qed.

(** Rounding a value of at least 1 gives at least 1. *)
Lemma binary_round_aux_ge1 (m e : Z) (l : location) :
  1 <= m -> (e <= 0 -> 2 ^ (- e) <= m) ->
  at_least_one (binary_round_aux prec emax false m e l).
Proof.
  intros Hm Hge. unfold binary_round_aux.
  destruct (shr_fexp prec emax m e l) as [mrs1 e1] eqn:E1.
  destruct (shr_fexp_ge1 m e l mrs1 e1 Hm Hge E1) as (H1 & Hge1).
  set (m2 := round_nearest_even (shr_m mrs1) (loc_of_shr_record mrs1)).
  pose proof (round_nearest_even_bounds (shr_m mrs1) (loc_of_shr_record mrs1))
    as Hr. fold m2 in Hr.
  destruct (shr_fexp prec emax m2 e1 loc_Exact) as [mrs2 e2] eqn:E2.
  destruct (shr_fexp_ge1 m2 e1 loc_Exact mrs2 e2) as (H3 & Hge3);
    [lia | intros; specialize (Hge1 ltac:(lia)); lia | done |].
  destruct (shr_m mrs2) as [|p|p]; [lia| |lia].
  by destruct (e2 <=? emax - prec).
Qed.

Lemma shr_1_pow2 (K : Z) :
  1 <= K ->
  shr_1 {| shr_m := 2 ^ K; shr_r := false; shr_s := false |}
  = {| shr_m := 2 ^ (K - 1); shr_r := false; shr_s := false |}.
Proof.
  intros HK. replace (2 ^ K) with (2 * 2 ^ (K - 1)).
  - assert (0 < 2 ^ (K - 1)) by (apply Z.pow_pos_nonneg; lia).
    destruct (2 ^ (K - 1)) as [|q|q]; [lia| |lia]. reflexivity.
  - rewrite <- (Z.pow_succ_r 2 (K - 1)) by lia. f_equal. lia.
Qed.

(** Shifting a power of two loses no digit. *)
Lemma iter_pos_shr_1_pow2 (p : positive) (K : Z) :
  Zpos p <= K ->
  SpecFloat.iter_pos shr_1 p {| shr_m := 2 ^ K; shr_r := false; shr_s := false |}
  = {| shr_m := 2 ^ (K - Zpos p); shr_r := false; shr_s := false |}.
Proof.
  revert K. induction p as [p IH|p IH|]; intros K HK; cbn [SpecFloat.iter_pos].
  - rewrite shr_1_pow2, IH, IH by lia. do 2 f_equal. lia.
  - rewrite IH, IH by lia. do 2 f_equal. lia.
  - by apply shr_1_pow2.
Qed.

Lemma Zdigits2_pow2 (K : Z) : 0 <= K -> Zdigits2 (2 ^ K) = K + 1.
Proof.
  intros HK. assert (0 < 2 ^ K) by (apply Z.pow_pos_nonneg; lia).
  pose proof (Zdigits2_le (2 ^ K) (K + 1)) as Hle.
  pose proof (Zdigits2_gt (2 ^ K) K) as Hgt.
  assert (2 ^ K < 2 ^ (K + 1)) by (apply Z.pow_lt_mono_r; lia).
  lia.
Qed.

(** The value 1, whatever its mantissa and exponent, rounds to [one]. *)
Lemma binary_round_aux_one (K : Z) :
  24 <= K ->
  binary_round_aux prec emax false (2 ^ K) (- K) loc_Exact = one.
Proof.
  intros HK. unfold binary_round_aux, shr_fexp.
  rewrite Zdigits2_pow2 by lia.
  replace (K + 1 + - K) with 1 by lia.
  change (fexp prec emax 1) with (-23).
  unfold shr. simpl shr_record_of_loc.
  destruct (-23 - - K) as [|p|p] eqn:En; [lia| |lia].
  rewrite iter_pos_shr_1_pow2 by lia.
  replace (K - Zpos p) with 23 by lia.
  replace (- K + Zpos p) with (-23) by lia.
  reflexivity.
Qed.

Lemma Pos_iter_xO (m d : positive) :
  Zpos (Pos.iter xO m d) = Zpos m * 2 ^ Zpos d.
Proof.
  induction d as [|d IH] using Pos.peano_ind.
  - simpl. lia.
  - rewrite Pos.iter_succ, Pos2Z.inj_succ, Z.pow_succ_r by lia.
    rewrite Pos2Z.inj_xO, IH. lia.
Qed.

(** Aligning to a smaller exponent keeps the value. *)
Lemma shl_align_spec (p : positive) (e e' : Z) :
  e' <= e ->
  snd (shl_align p e e') = e' /\
  Zpos (fst (shl_align p e e')) = Zpos p * 2 ^ (e - e').
Proof.
  intros He. unfold shl_align.
  destruct (e' - e) as [|d|d] eqn:Ed; simpl; [|lia|].
  - assert (e' = e) as -> by lia. rewrite Z.sub_diag. simpl. lia.
  - rewrite Pos_iter_xO. split; [done|]. do 2 f_equal. lia.
Qed.

Lemma shl_align_value (p : positive) (e e' : Z) :
  snd (shl_align p e e') <= e /\
  Zpos (fst (shl_align p e e')) = Zpos p * 2 ^ (e - snd (shl_align p e e')).
Proof.
  destruct (Z.le_gt_cases e' e) as [Hle|Hgt].
  - destruct (shl_align_spec p e e' Hle) as [-> ->]. done.
  - unfold shl_align. destruct (e' - e) as [|d|d] eqn:Ed; simpl; try lia.
    all: rewrite Z.sub_diag; simpl; lia.
Qed.

Lemma binary_round_ge1 (p : positive) (e : Z) :
  e <= 0 -> 2 ^ (- e) <= Zpos p ->
  at_least_one (binary_round prec emax false p e).
Proof.
  intros He Hge. unfold binary_round.
  pose proof (shl_align_value p e (fexp prec emax (Zpos (digits2_pos p) + e)))
    as [Hs Hv].
  destruct (shl_align p e _) as [mz ez]. simpl in Hs, Hv.
  apply binary_round_aux_ge1; [lia|]. intros _. rewrite Hv.
  replace (- ez) with (- e + (e - ez)) by lia.
  rewrite Z.pow_add_r by lia.
  apply Z.mul_le_mono_nonneg_r; [|done]. apply Z.pow_nonneg. lia.
Qed.

Lemma binary_normalize_nonneg (z e : Z) :
  0 <= z -> nonneg_float (binary_normalize prec emax z e false).
Proof.
  intros Hz. destruct z as [|p|p]; [done| |lia]. simpl. unfold binary_round.
  destruct (shl_align p e _) as [mz ez]. by apply binary_round_aux_nonneg.
Qed.

(** *** The logistic function *)

Lemma one_eq : one = S754_finite false 8388608 (-23).
Proof. reflexivity. Qed.

Lemma at_least_one_one : at_least_one one.
Proof. rewrite one_eq. simpl. intros _. by vm_compute. Qed.

Lemma in_unit_interval_one : in_unit_interval one.
Proof. rewrite one_eq. simpl. split; [lia|]. by vm_compute. Qed.

(** Adding a float that is not negative to 1 gives at least 1. *)
Lemma add_one_ge1 (x : float32) : nonneg_float x -> at_least_one (add one x).
Proof.
  rewrite one_eq. destruct x as [[]|[]| |[] m e]; try done.
  intros _. unfold add, SFadd. simpl cond_Zopp.
  set (ez := Z.min (-23) e).
  destruct (shl_align_spec 8388608 (-23) ez ltac:(lia)) as [_ H1].
  change (Zpos (fst (shl_align 8388608 (-23) ez))
          + Zpos (fst (shl_align m e ez)))
    with (Zpos (fst (shl_align 8388608 (-23) ez) + fst (shl_align m e ez))).
  simpl binary_normalize. apply binary_round_ge1; [lia|].
  rewrite Pos2Z.inj_add, H1.
  change (Zpos 8388608) with (2 ^ 23). rewrite <- Z.pow_add_r by lia.
  replace (23 + (-23 - ez)) with (- ez) by lia. lia.
Qed.

Lemma new_location_zero (nb : Z) : new_location nb 0 = loc_Exact.
Proof.
  unfold new_location, new_location_even, new_location_odd.
  by destruct (Z.even nb).
Qed.

(** Dividing 1 by a float that is at least 1 gives a float between 0
    and 1. *)
Lemma div_one_in_unit_interval (y : float32) :
  at_least_one y -> in_unit_interval (div one y).
Proof.
  rewrite one_eq. destruct y as [[]|[]| |[] my ey]; try done.
  simpl at_least_one. intros Hge.
  unfold div, SFdiv, SFdiv_core_binary. simpl xorb.
  change (Zdigits2 (Zpos 8388608)) with 24.
  set (d := Zdigits2 (Zpos my)).
  assert (Hd : 1 <= d + ey).
  { destruct (Z.le_gt_cases ey 0) as [Hey|Hey].
    - pose proof (Zdigits2_gt (Zpos my) (- ey) ltac:(lia) (Hge Hey)). lia.
    - unfold d. simpl. lia. }
  rewrite fexp32.
  set (e' := Z.min (Z.max (24 + -23 - (d + ey) - 24) (-149)) (-23 - ey)).
  assert (He' : e' <= -24) by lia.
  set (s := -23 - ey - e').
  assert (Hs : 0 <= s) by lia.
  set (m' := match s with
             | 0 => Zpos 8388608
             | Zpos _ => Z.shiftl (Zpos 8388608) s
             | Zneg _ => 0
             end).
  assert (Hm' : m' = 2 ^ (23 + s)).
  { unfold m'. destruct s as [|p|p] eqn:Es; [done| |lia].
    rewrite Z.shiftl_mul_pow2 by lia. change (Zpos 8388608) with (2 ^ 23).
    by rewrite <- Z.pow_add_r by lia. }
  pose proof (Z_div_mod m' (Zpos my) ltac:(lia)) as Hdm.
  destruct (Z.div_eucl m' (Zpos my)) as [q r]. destruct Hdm as [Hq Hr].
  assert (Hpow : 0 < 2 ^ (- e')) by (apply Z.pow_pos_nonneg; lia).
  assert (Hq0 : 0 <= q) by nia.
  destruct (Z.le_gt_cases ey 0) as [Hey|Hey].
  - specialize (Hge Hey).
    assert (Hsplit : 2 ^ (23 + s) = 2 ^ (- ey) * 2 ^ (- e')).
    { rewrite <- Z.pow_add_r by lia. f_equal. lia. }
    destruct (Z.eq_dec (Zpos my) (2 ^ (- ey))) as [Heq|Hne].
    + rewrite Hm', Hsplit, <- Heq in Hq.
      set (X := 2 ^ (- e')) in *.
      assert (q = X) as -> by nia. assert (r = 0) as -> by nia.
      unfold X.
      rewrite new_location_zero.
      replace e' with (- (- e')) at 2 by lia.
      rewrite binary_round_aux_one by lia. apply in_unit_interval_one.
    + apply binary_round_aux_lt1; [done|lia|].
      rewrite Hm', Hsplit in Hq.
      set (X := 2 ^ (- e')) in *. set (Y := 2 ^ (- ey)) in *. nia.
  - apply binary_round_aux_lt1; [done|lia|].
    assert (2 ^ (23 + s) < 2 ^ (- e')) by (apply Z.pow_lt_mono_r; lia).
    rewrite Hm' in Hq. set (X := 2 ^ (- e')) in *.
    set (Y := 2 ^ (23 + s)) in *. nia.
Qed.

Lemma fx_square_nonneg (u : Z) : 0 <= fx_square u.
Proof.
  unfold fx_square. apply Z.div_pos; [nia|].
  unfold fx_one, fx_bits. apply Z.pow_pos_nonneg; lia.
Qed.

Lemma iter_fx_square_nonneg (n : nat) (u : Z) :
  0 <= Nat.iter (S n) fx_square u.
Proof. simpl. apply fx_square_nonneg. Qed.

Lemma exp_neg_nonneg (m : positive) (e : Z) : 0 <= exp_neg m e.
Proof. unfold exp_neg. apply (iter_fx_square_nonneg 7). Qed.

(** [exp] is never negative. *)
Lemma exp_nonneg (x : float32) : x <> S754_nan -> nonneg_float (exp x).
Proof.
  destruct x as [s|[]| |s m e]; try done.
  intros _. unfold exp.
  destruct (7 <=? Z.log2 (Zpos m) + e); [by destruct s|].
  destruct s; apply binary_normalize_nonneg.
  - apply exp_neg_nonneg.
  - pose proof (exp_neg_nonneg m e) as Hu.
    destruct (Z.eq_dec (exp_neg m e) 0) as [->|Hne].
    + by rewrite Z.div_0_r.
    + apply Z.div_pos; [|lia]. apply Z.pow_nonneg. lia.
Qed.

(** In single precision [1 / (1 + e)] lies in the closed interval from 0
    to 1 for every [e] that is not negative, whatever function computed
    it; so does the logistic function. *)
Lemma logistic_in_unit_interval (e : float32) :
  nonneg_float e -> in_unit_interval (div one (add one e)).
Proof. intros He. by apply div_one_in_unit_interval, add_one_ge1. Qed.

Lemma sigmoid_in_unit_interval (x : float32) :
  x <> S754_nan -> in_unit_interval (sigmoid x).
Proof.
  intros Hx. unfold sigmoid. apply logistic_in_unit_interval, exp_nonneg.
  by destruct x as [|[]| |].
Qed.

Lemma sigmoid_nan : sigmoid S754_nan = S754_nan.
Proof. reflexivity. Qed.
End SinglePrecision.

(** ** The termination probability in single precision *)

(** C6, amended.  On every call that is not a memo hit the returned
    termination probability is the logistic function applied to each
    entry of the output of the termination head.  In single precision
    each entry lies in the closed interval from 0 to 1 unless the entry
    of the head is NaN: it is never out of range, and it can be exactly
    0 or 1.  This holds for every exponential the kernel of
    [torch.sigmoid] may use, correctly rounded or not, as long as it
    returns no negative value, and for whatever arithmetic the layers
    use. *)
Theorem termination_in_unit_interval
    (sc : Scalar float32) (e : float32 → float32)
    (m : LatentDynamicsModel float32) (s a n r t : Tensor float32)
    (m' : LatentDynamicsModel float32) :
  exponential e → logistic_scalar sc e →
  @forward float32 _ _ sc m s a = Ok ((n, r, t, false), m') →
  ∃ x o, torch_cat s a = Ok x ∧ @term_head float32 _ _ sc m x = Ok o ∧
    t = @torch_sigmoid float32 sc o ∧
    Forall2 (λ y p, p = logistic e y ∧ (y ≠ S754_nan → in_unit_interval p))
            (data o) (data t).
Proof.
  intros He Hsc
    (x & o & Hx & _ & Ho & Ht & _ & Hd)%forward_reward_termination_on_miss.
  exists x, o. do 3 (split; [done|]). rewrite Hd.
  apply Forall2_fmap_r, Forall_Forall2_diag, Forall_forall.
  intros y _. split; [apply Hsc|]. intros Hy. rewrite Hsc.
  apply logistic_in_unit_interval, He. by destruct y as [|[]| |].
Qed.

(** The amended C6 at the miss of [delta22] on [(s0, a0)], with the
    exponential [exp]: the termination head outputs 0 and the termination
    probability is 1/2. *)
Lemma termination_in_unit_interval_witness :
  exponential exp ∧ logistic_scalar float32_scalar exp ∧
  forward delta22 s0 a0
    = Ok ((vec [2; 4]%Z, vec [3]%Z, torch_sigmoid (vec [0]%Z), false), delta22) ∧
  ∃ o, term_head delta22 (vec [1; 2; 0; 1]%Z) = Ok o ∧
    Forall2 (λ y p, p = logistic exp y ∧ (y ≠ S754_nan → in_unit_interval p))
            (data o) (data (torch_sigmoid (vec [0]%Z))).
Proof.
  assert (He : exponential exp) by exact exp_nonneg.
  assert (Hsc : logistic_scalar float32_scalar exp) by (intros y; reflexivity).
  assert (E : forward delta22 s0 a0
    = Ok ((vec [2; 4]%Z, vec [3]%Z, torch_sigmoid (vec [0]%Z), false), delta22))
    by (vm_compute; reflexivity).
  split; [exact He|]. split; [exact Hsc|]. split; [exact E|].
  destruct (termination_in_unit_interval float32_scalar exp
              delta22 s0 a0 _ _ _ _ He Hsc E)
    as (x & o & Hx & Ho & _ & Hall).
  assert (x = vec [1; 2; 0; 1]%Z) as ->.
  { assert (Ec : torch_cat s0 a0 = Ok (vec [1; 2; 0; 1]%Z)) by reflexivity.
    rewrite Ec in Hx. by injection Hx. }
  exists o. split; [exact Ho | exact Hall].
Defined.

(** C6 as stated fails: with a termination head that outputs 100 on the
    finite input [(s0, a0)], [forward] computes the termination
    probability 1, and with one that outputs -200 it computes 0; neither
    is strictly between 0 and 1. *)
Lemma termination_saturates :
  term_head saturated22 (vec [1; 2; 0; 1]%Z) = Ok (vec [100]%Z) ∧
  fst <$> forward saturated22 s0 a0
    = Ok (vec [1; 2]%Z, vec [3]%Z, vec [1]%Z, false) ∧
  ¬ in_open_unit_interval (of_Z 1) ∧
  term_head flushed22 (vec [1; 2; 0; 1]%Z) = Ok (vec [-200]%Z) ∧
  fst <$> forward flushed22 s0 a0
    = Ok (vec [1; 2]%Z, vec [3]%Z, vec [0]%Z, false) ∧
  ¬ in_open_unit_interval (of_Z 0).
Proof.
  split; [vm_compute; reflexivity|].
  split; [vm_compute; reflexivity|].
  split; [vm_compute; intros [_ H]; discriminate H|].
  split; [vm_compute; reflexivity|].
  split; [vm_compute; reflexivity|].
  vm_compute. tauto.
Qed.

(** * Further properties of the methods *)

(** ** What no call changes *)

Section Frame.
Context {F : Type} `{Countable F} `{Scalar F}.
Implicit Types (m : LatentDynamicsModel F) (s a x : Tensor F).

Lemma same_parameters_refl m : same_parameters m m.
Proof. by repeat split. Qed.

Lemma same_parameters_trans m1 m2 m3 :
  same_parameters m1 m2 → same_parameters m2 m3 → same_parameters m1 m3.
Proof.
  intros (?&?&?&?&?&?&?) (?&?&?&?&?&?&?). repeat split; congruence.
Qed.

Lemma forward_same_parameters m s a p m' :
  forward m s a = Ok (p, m') → same_parameters m m' ∧ memoize_on m' = memoize_on m.
Proof.
  intros (x & _ & [(? & ? & ? & _ & _ & ->)|(v & _ & _ & _ & ->)])%forward_Ok_inv.
  - split; [apply same_parameters_refl | done].
  - unfold memo_store. destruct (memoize_on m) eqn:E; [|by split; [apply same_parameters_refl|]].
    split; [by repeat split | done].
Qed.

Lemma step_same_parameters m c : same_parameters m (step m c).
Proof.
  destruct c as [| |s a ns r t| |s a]; simpl; try by repeat split.
  - unfold set_memo. destruct (torch_cat s a); simpl; by repeat split.
  - destruct (forward m s a) as [[p m']|e] eqn:E; [|apply same_parameters_refl].
    by apply forward_same_parameters in E as [? _].
Qed.

Lemma step_memoize_on m c : ¬ toggles c → memoize_on (step m c) = memoize_on m.
Proof.
  destruct c as [| |s a ns r t| |s a]; simpl; try done.
  - intros _. unfold set_memo. by destruct (torch_cat s a).
  - intros _. destruct (forward m s a) as [[p m']|e] eqn:E; [|done].
    by apply forward_same_parameters in E as [_ ?].
Qed.

Lemma network_same_parameters m1 m2 s x :
  same_parameters m1 m2 → network m1 s x = network m2 s x.
Proof.
  intros (Hd & _ & H1 & H2 & H3 & H4 & H5).
  unfold network, hidden. by rewrite Hd, H1, H2, H3, H4, H5.
Qed.

Lemma has_dims_same_parameters m1 m2 d_s d_a :
  same_parameters m1 m2 → has_dims m1 d_s d_a → has_dims m2 d_s d_a.
Proof.
  intros (_ & _ & H1 & H2 & H3 & H4 & H5). unfold has_dims.
  by rewrite H1, H2, H3, H4, H5.
Qed.

Lemma forward_has_dims m s a p m' d_s d_a :
  forward m s a = Ok (p, m') → has_dims m d_s d_a → has_dims m' d_s d_a.
Proof.
  intros [Hp _]%forward_same_parameters. by apply has_dims_same_parameters.
Qed.

Lemma steps_same_parameters m (cs : list (call F)) :
  same_parameters m (steps m cs).
Proof.
  unfold steps. revert m.
  induction cs as [|c cs IH]; intros m; simpl; [apply same_parameters_refl|].
  eapply same_parameters_trans; [apply step_same_parameters | apply IH].
Qed.

(** X1.  No sequence of calls of the public methods changes the layers,
    the delta mode or the device of an instance, so the layers compute
    the same function of a query before and after it; and the mode flag
    is changed by [start_memoize] and [stop_memoize] only. *)
Theorem steps_keep_parameters m (cs : list (call F)) :
  same_parameters m (steps m cs) ∧
  (∀ s x, network (steps m cs) s x = network m s x) ∧
  (Forall (λ c, ¬ toggles c) cs → memoize_on (steps m cs) = memoize_on m).
Proof.
  split; [apply steps_same_parameters|]. split.
  - intros s x. symmetry. apply network_same_parameters, steps_same_parameters.
  - unfold steps. revert m. induction cs as [|c cs IH]; intros m Hcs; simpl; [done|].
    inversion Hcs; subst. rewrite IH by done. by apply step_memoize_on.
Qed.
End Frame.

(** ** Shapes of a prediction *)

Section Outputs.
Context {F : Type} `{Countable F} `{Scalar F}.
Implicit Types (m : LatentDynamicsModel F) (s a x : Tensor F).

Lemma torch_relu_shape x : shape (torch_relu x) = shape x.
Proof. done. Qed.

Lemma tensor_add_Ok_shape s a c :
  tensor_add s a = Ok c → broadcast_shapes (shape s) (shape a) = Some (shape c).
Proof.
  unfold tensor_add. destruct (broadcast_shapes _ _) as [sh|]; [|done].
  by intros [= <-].
Qed.

(** Broadcasting a last axis of size 1 against any size, either way. *)
Lemma broadcast_shapes_last (lead : list nat) (w1 w2 : nat) :
  w1 = w2 ∨ w1 = 1 ∨ w2 = 1 →
  broadcast_shapes (lead ++ [w1]) (lead ++ [w2])
  = Some (lead ++ [if bool_decide (w1 = w2) then w1
                   else if bool_decide (w1 = 1) then w2 else w1]).
Proof.
  intros Hw. unfold broadcast_shapes. rewrite !reverse_snoc. simpl.
  rewrite broadcast_rev_same. simpl.
  repeat case_bool_decide; simpl; rewrite ?reverse_cons, ?reverse_involutive;
    try done; lia.
Qed.

Lemma broadcast_shapes_last_None (lead : list nat) (w1 w2 : nat) :
  w1 ≠ w2 → w1 ≠ 1 → w2 ≠ 1 →
  broadcast_shapes (lead ++ [w1]) (lead ++ [w2]) = None.
Proof.
  intros. unfold broadcast_shapes. rewrite !reverse_snoc. simpl.
  rewrite broadcast_rev_same. simpl. by rewrite !bool_decide_eq_false_2.
Qed.

(** The three heads on a raw input of the right width. *)
Lemma heads_shape m x d_s d_a lead :
  has_dims m d_s d_a → shape x = lead ++ [d_s + d_a] →
  ∃ h o r t, hidden m x = Ok h ∧
    Linear_forward (latent_out m) h = Ok o ∧ shape o = lead ++ [d_s] ∧
    Linear_forward (reward_out m) h = Ok r ∧ shape r = lead ++ [1] ∧
    Linear_forward (term_out m) h = Ok t ∧ shape t = lead ++ [1].
Proof.
  intros D Hx.
  destruct (hidden_shape m x d_s d_a lead D Hx) as (h & Hh & Sh).
  destruct D as (_ & _ & _ & _ & L1 & L2 & R1 & R2 & T1 & T2).
  destruct (Linear_forward_shape (latent_out m) h lead) as (o & Eo & So);
    [by rewrite L1|].
  destruct (Linear_forward_shape (reward_out m) h lead) as (r & Er & Sr);
    [by rewrite R1|].
  destruct (Linear_forward_shape (term_out m) h lead) as (t & Et & St);
    [by rewrite T1|].
  exists h, o, r, t. rewrite So, Sr, St, L2, R2, T2. done.
Qed.

(** Shapes of what the layers compute. *)
Lemma network_shapes m s x d_s d_a lead n r t :
  has_dims m d_s d_a →
  shape s = lead ++ [d_s] → shape x = lead ++ [d_s + d_a] →
  network m s x = Ok (n, r, t) →
  shape n = lead ++ [d_s] ∧ shape r = lead ++ [1] ∧ shape t = lead ++ [1].
Proof.
  intros D Hs Sx Hv.
  destruct (heads_shape m x d_s d_a lead D Sx)
    as (h & o & r' & t' & Hh & Ho & So & Hr & Sr & Ht & St).
  unfold network in Hv. rewrite Hh in Hv. simpl in Hv.
  rewrite Ho, Hr, Ht in Hv.
  destruct (delta_mode m); simpl in Hv.
  - destruct (tensor_add s o) as [c|e] eqn:Hc; simpl in Hv; [|done].
    simplify_eq. split; [|done].
    apply tensor_add_Ok_shape in Hc. rewrite Hs, So in Hc.
    rewrite (broadcast_shapes_last lead d_s d_s) in Hc by auto.
    rewrite bool_decide_eq_true_2 in Hc by done. by simplify_eq.
  - by simplify_eq.
Qed.

(** X2.  A prediction that [forward] computes for a latent state of
    shape [lead ++ [d_s]] and an action of shape [lead ++ [d_a]] has a
    next state of the shape of the latent state and a reward and a
    termination probability of shape [lead ++ [1]], whatever the leading
    axes are. *)
Theorem forward_output_shapes m s a d_s d_a lead n r t m' :
  has_dims m d_s d_a →
  shape s = lead ++ [d_s] → shape a = lead ++ [d_a] →
  forward m s a = Ok ((n, r, t, false), m') →
  shape n = lead ++ [d_s] ∧ shape r = lead ++ [1] ∧ shape t = lead ++ [1].
Proof.
  intros D Hs Ha (x & Hx & Hcase)%forward_Ok_inv.
  destruct Hcase as [(? & ? & ? & _ & ? & _)|(v & _ & Hv & Hp & _)]; [done|].
  simplify_eq.
  destruct (torch_cat_shape s a lead d_s d_a Hs Ha) as (x' & Hx' & Sx).
  assert (x' = x) as -> by congruence.
  by apply (network_shapes m s x d_s d_a lead).
Qed.
End Outputs.

(** ** What a call does to the store *)

Section Effects.
Context {F : Type} `{Countable F} `{Scalar F}.
Implicit Types (m : LatentDynamicsModel F) (s a x : Tensor F).

(** X3.  What a returning [forward] did is read off its flag.  The flag
    is true exactly when memoization is on and the key is in the store;
    then the stored triple is returned and the instance is unchanged.
    When it is false and memoization is on, the key was absent, the
    returned triple is inserted under it and the store has one entry
    more; with memoization off the instance is unchanged.  In every case
    the entries of the store before the call are still there. *)
Theorem forward_store_effect m s a n r t hit m' :
  forward m s a = Ok ((n, r, t, hit), m') →
  ∃ x, torch_cat s a = Ok x ∧
    (hit = true ↔
       memoize_on m = true ∧ is_Some (memos m !! mkHashedTensor x)) ∧
    (hit = true → m' = m ∧ memos m !! mkHashedTensor x = Some (n, r, t)) ∧
    (hit = false → memoize_on m = true →
       memos m !! mkHashedTensor x = None ∧
       memos m' = <[mkHashedTensor x := (n, r, t)]> (memos m) ∧
       size (memos m') = S (size (memos m))) ∧
    (memoize_on m = false → m' = m) ∧
    memos m ⊆ memos m'.
Proof.
  intros (x & Hx & Hcase)%forward_Ok_inv. exists x. split; [done|].
  unfold memo_lookup, memo_store in Hcase.
  destruct Hcase as [(n' & r' & t' & Hk & Hp & ->)|(v & Hk & _ & Hp & ->)];
    simplify_eq.
  - destruct (memoize_on m) eqn:Hon; [|done].
    split; [|by repeat split].
    split; [|done]. intros _. split; [done|]. rewrite Hk. by eexists.
  - split.
    { split; [done|]. intros [Hon [w Hw]]. rewrite Hon in Hk. congruence. }
    split; [done|].
    destruct (memoize_on m) eqn:Hon; simpl.
    + split; [|split; [done|by apply insert_subseteq]].
      intros _ _. split; [done|]. split; [done|].
      by apply map_size_insert_None.
    + by repeat split.
Qed.
End Effects.

(** ** When [forward] returns *)

Section Errors.
Context {F : Type} `{Countable F} `{Scalar F}.
Implicit Types (m : LatentDynamicsModel F) (s a x : Tensor F).

(** A concatenation has at least one axis. *)
Lemma torch_cat_Ok_rank s a x :
  torch_cat s a = Ok x → ∃ lead w, shape x = lead ++ [w].
Proof.
  unfold torch_cat.
  destruct (unsnoc (shape s)) as [[la wa]|] eqn:Es; [|done].
  destruct (unsnoc (shape a)) as [[lb wb]|] eqn:Ea; [|done].
  apply unsnoc_Some in Es, Ea.
  repeat case_match; intros [= <-]; simpl; eauto.
  by exists [], 0.
Qed.

(** X4.  In delta mode [forward] does not ask for a latent state of
    width [d_s].  On inputs with the same leading axes whose widths sum
    to [d_s + d_a] and whose key is not found, it returns a computed
    prediction when the latent width is [d_s] or 1, or when [d_s] is 1:
    the sum broadcasts, so that a latent state of width 1 gets a next
    state of width [d_s], and with [d_s = 1] the next state has the
    width of the latent state; reward and termination probability have
    width 1. *)
Theorem delta_broadcast_accepted m s a d_s d_a lead ws wa :
  has_dims m d_s d_a → delta_mode m = true →
  shape s = lead ++ [ws] → shape a = lead ++ [wa] →
  ws + wa = d_s + d_a → ws = d_s ∨ ws = 1 ∨ d_s = 1 →
  (∀ x, torch_cat s a = Ok x → memo_lookup m x = None) →
  ∃ n r t m',
    forward m s a = Ok ((n, r, t, false), m') ∧
    shape n = lead ++ [if bool_decide (ws = 1) then d_s else ws] ∧
    shape r = lead ++ [1] ∧ shape t = lead ++ [1].
Proof.
  intros D Hd Hs Ha Hsum Hw Hmiss.
  destruct (torch_cat_shape s a lead ws wa Hs Ha) as (x & Hx & Sx).
  rewrite Hsum in Sx.
  destruct (heads_shape m x d_s d_a lead D Sx)
    as (h & o & r & t & Hh & Ho & So & Hr & Sr & Ht & St).
  rewrite (forward_miss m s a x) by auto.
  unfold network. rewrite Hh. simpl. rewrite Hd, Ho. simpl.
  unfold tensor_add. rewrite Hs, So.
  rewrite (broadcast_shapes_last lead ws d_s) by done. simpl.
  rewrite Hr, Ht. simpl.
  eexists _, _, _, _. split; [reflexivity|]. simpl.
  split; [|done]. f_equal. f_equal.
  repeat case_bool_decide; lia.
Qed.

Lemma forward_off_unfold m s a :
  memoize_on m = false →
  forward m s a = x ← torch_cat s a; v ← network m s x; Ok ((v, false), m).
Proof.
  intros Hoff. rewrite forward_unfold.
  destruct (torch_cat s a) as [x|e]; simpl; [|done].
  rewrite memo_lookup_off by done.
  destruct (network m s x) as [v|e]; simpl; [|done].
  by rewrite memo_store_off.
Qed.

(** Two instances with the same layers, one in absolute mode and one in
    delta mode, both with memoization off. *)
Lemma delta_against_absolute mA mD d_s d_a s a :
  has_dims mA d_s d_a →
  fc1 mD = fc1 mA → fc2 mD = fc2 mA → latent_out mD = latent_out mA →
  reward_out mD = reward_out mA → term_out mD = term_out mA →
  delta_mode mA = false → delta_mode mD = true →
  memoize_on mA = false → memoize_on mD = false →
  (∀ n' r t hit m',
     forward mD s a = Ok ((n', r, t, hit), m') →
     hit = false ∧ m' = mD ∧
     ∃ n, tensor_add s n = Ok n' ∧ forward mA s a = Ok ((n, r, t, false), mA)) ∧
  (∀ n r t hit m' n',
     forward mA s a = Ok ((n, r, t, hit), m') → tensor_add s n = Ok n' →
     forward mD s a = Ok ((n', r, t, false), mD)) ∧
  (∀ n r t hit m' e,
     forward mA s a = Ok ((n, r, t, hit), m') → tensor_add s n = Raise e →
     forward mD s a = Raise e) ∧
  (∀ e, forward mA s a = Raise e → forward mD s a = Raise e).
Proof.
  intros DA E1 E2 E3 E4 E5 HdA HdD HoA HoD.
  rewrite (forward_off_unfold mA) by done.
  rewrite (forward_off_unfold mD) by done.
  destruct (torch_cat s a) as [x|e] eqn:Hx; simpl; [|by repeat split].
  unfold network, hidden. rewrite E1, E2, E3, E4, E5, HdA, HdD.
  fold (hidden mA x).
  destruct (torch_cat_Ok_rank s a x Hx) as (lead & w & Sx).
  destruct (decide (w = d_s + d_a)) as [->|Hw].
  - destruct (heads_shape mA x d_s d_a lead DA Sx)
      as (h & o & r' & t' & Hh & Ho & _ & Hr & _ & Ht & _).
    rewrite Hh. simpl. rewrite Ho, Hr, Ht. simpl.
    split; [|split; [|split]].
    + intros n' r t hit m' Hv.
      destruct (tensor_add s o) as [c|e] eqn:Hc; simpl in Hv; [|done].
      simplify_eq. eauto.
    + intros n r t hit m' n' [= <- <- <- <- <-] Hc. by rewrite Hc.
    + intros n r t hit m' e [= <- <- <- <- <-] Hc. by rewrite Hc.
    + done.
  - assert (Eh : hidden mA x = Raise LinearShapeMismatch).
    { unfold hidden.
      rewrite (Linear_forward_mismatch (fc1 mA) x lead w); [done..|].
      by destruct DA as (-> & _). }
    rewrite Eh. simpl. by repeat split.
Qed.

(** X5.  The [delta_mode] argument of [__init__] changes the next state
    and nothing else.  Two instances built from the same initial
    parameters, one in each mode, agree on the reward and the termination
    probability of every query; the delta instance returns the latent
    state plus the next state of the absolute one, and it raises where
    the absolute one raises or where that sum does. *)
Theorem delta_mode_shifts_next_state d_s d_a best dev (params : Initializer F) s a :
  (∀ n' r t hit m',
     forward (init d_s d_a true best dev params) s a = Ok ((n', r, t, hit), m') →
     hit = false ∧ m' = init d_s d_a true best dev params ∧
     ∃ n, tensor_add s n = Ok n' ∧
       forward (init d_s d_a false best dev params) s a
       = Ok ((n, r, t, false), init d_s d_a false best dev params)) ∧
  (∀ n r t hit m' n',
     forward (init d_s d_a false best dev params) s a = Ok ((n, r, t, hit), m') →
     tensor_add s n = Ok n' →
     forward (init d_s d_a true best dev params) s a
     = Ok ((n', r, t, false), init d_s d_a true best dev params)) ∧
  (∀ n r t hit m' e,
     forward (init d_s d_a false best dev params) s a = Ok ((n, r, t, hit), m') →
     tensor_add s n = Raise e →
     forward (init d_s d_a true best dev params) s a = Raise e) ∧
  (∀ e, forward (init d_s d_a false best dev params) s a = Raise e →
        forward (init d_s d_a true best dev params) s a = Raise e).
Proof.
  by apply (delta_against_absolute _ _ d_s d_a); [apply init_has_dims|..].
Qed.

(** X6.  Memoization is opt-in.  An instance as [__init__] builds it has
    memoization off and an empty store; after any number of [forward]
    calls it is still the instance that was built, and a query of the
    widths it was built for returns a computed prediction (flag false)
    whose three parts keep the leading axes of the query. *)
Theorem fresh_model_computes d_s d_a delta best dev (params : Initializer F)
    (qs : list (Tensor F * Tensor F)) s a lead :
  shape s = lead ++ [d_s] → shape a = lead ++ [d_a] →
  steps (init d_s d_a delta best dev params) ((λ q, Forward q.1 q.2) <$> qs)
  = init d_s d_a delta best dev params ∧
  memos (init d_s d_a delta best dev params) = ∅ ∧
  ∃ n r t,
    forward (steps (init d_s d_a delta best dev params)
               ((λ q, Forward q.1 q.2) <$> qs)) s a
    = Ok ((n, r, t, false), init d_s d_a delta best dev params) ∧
    shape n = lead ++ [d_s] ∧ shape r = lead ++ [1] ∧ shape t = lead ++ [1].
Proof.
  intros Hs Ha. set (m0 := init d_s d_a delta best dev params).
  assert (Hoff : memoize_on m0 = false) by done.
  assert (D : has_dims m0 d_s d_a) by apply init_has_dims.
  rewrite (steps_forward_off m0 qs Hoff).
  split; [done|]. split; [done|].
  destruct (torch_cat_shape s a lead d_s d_a Hs Ha) as (x & Hx & Sx).
  destruct (network_returns m0 s x d_s d_a lead D (λ _, Hs) Sx) as ([[n r] t] & Hv).
  exists n, r, t. split.
  - rewrite forward_off_unfold by done. rewrite Hx. simpl. by rewrite Hv.
  - by apply (network_shapes m0 s x d_s d_a lead).
Qed.
End Errors.

(** ** Keys *)

(** Interleaving the rows of two matrices loses nothing. *)
Lemma interleave_inj {A} (n ws wa : nat) (ds da ds' da' : list A) :
  length ds = n * ws → length da = n * wa →
  length ds' = n * ws → length da' = n * wa →
  concat (zip_with app (chunks n ws ds) (chunks n wa da))
  = concat (zip_with app (chunks n ws ds') (chunks n wa da')) →
  ds = ds' ∧ da = da'.
Proof.
  revert ds da ds' da'. induction n as [|n IH]; intros ds da ds' da' L1 L2 L3 L4.
  - simpl in *. destruct ds, da, ds', da'; done.
  - simpl. rewrite <- !(assoc_L (++)). intros E.
    apply app_inj_1 in E as [E1 E]; [|rewrite !length_take; lia].
    apply app_inj_1 in E as [E2 E]; [|rewrite !length_take; lia].
    apply IH in E as [E3 E4]; [|rewrite length_drop; lia..].
    split.
    + by rewrite <- (take_drop ws ds), <- (take_drop ws ds'), E1, E3.
    + by rewrite <- (take_drop wa da), <- (take_drop wa da'), E2, E4.
Qed.

Section KeyInjectivity.
Context {F : Type} `{Countable F} `{Scalar F}.
Implicit Types (m : LatentDynamicsModel F) (s a x : Tensor F).

Lemma valid_empty s : valid s → shape s = [0] → data s = [].
Proof.
  unfold valid. intros V E. rewrite E in V. simpl in V. by destruct (data s).
Qed.

Lemma tensor_eq (t1 t2 : Tensor F) :
  shape t1 = shape t2 → data t1 = data t2 → t1 = t2.
Proof. destruct t1, t2; simpl; congruence. Qed.

(** On the queries a model was built for the key determines the
    query. *)
Lemma torch_cat_inj d_s d_a s a s' a' :
  in_domain d_s d_a s a → in_domain d_s d_a s' a' →
  torch_cat s a = torch_cat s' a' → s = s' ∧ a = a'.
Proof.
  intros ((lead & Ss & Sa) & Vs & Va) ((lead' & Ss' & Sa') & Vs' & Va') E.
  destruct (torch_cat_shape s a lead d_s d_a Ss Sa) as (x & Hx & Sx).
  destruct (torch_cat_shape s' a' lead' d_s d_a Ss' Sa') as (x' & Hx' & Sx').
  assert (x' = x) as -> by congruence.
  assert (lead' = lead) as ->.
  { rewrite Sx in Sx'. by apply app_inj_tail in Sx' as [-> _]. }
  unfold torch_cat, cat_should_skip in Hx, Hx'.
  rewrite Ss, Sa, !unsnoc_app in Hx. rewrite Ss', Sa', !unsnoc_app in Hx'.
  unfold valid in *.
  repeat case_bool_decide; simplify_eq/=.
  - split; apply tensor_eq; try congruence.
    + rewrite (valid_empty s), (valid_empty s'); try done; congruence.
    + rewrite (valid_empty a), (valid_empty a'); try done; congruence.
  - split; [|done]. apply tensor_eq; [congruence|].
    rewrite (valid_empty s), (valid_empty s'); try done; congruence.
  - split; [done|]. apply tensor_eq; [congruence|].
    rewrite (valid_empty a), (valid_empty a'); try done; congruence.
  - rewrite Ss, numel_snoc in Vs. rewrite Sa, numel_snoc in Va.
    rewrite Ss', numel_snoc in Vs'. rewrite Sa', numel_snoc in Va'.
    match goal with E : concat _ = concat _ |- _ =>
      apply interleave_inj in E as [E1 E2]; [|done..] end.
    split; apply tensor_eq; congruence.
Qed.
End KeyInjectivity.

(** ** Memoization against recomputation *)

Section Transparency.
Context {F : Type} `{Countable F} `{Scalar F}.
Implicit Types (m : LatentDynamicsModel F) (s a x : Tensor F).

(** X7.  The key is matched exactly.  After a first call on a cleared
    store with memoization on, a second call is a hit exactly when its
    concatenated input is the one of the first call; and when both
    queries have the widths the model was built for and data that fill
    their shapes, exactly when it is the same latent state and the same
    action, element by element and shape by shape. *)
Theorem memo_key_exact_match m d_s d_a s a s' a' p m1 p' m2 :
  memoize_on m = true →
  forward (clear_memos m) s a = Ok (p, m1) →
  forward m1 s' a' = Ok (p', m2) →
  (p'.2 = true ↔ torch_cat s' a' = torch_cat s a) ∧
  (in_domain d_s d_a s a → in_domain d_s d_a s' a' →
   (p'.2 = true ↔ s' = s ∧ a' = a)).
Proof.
  intros Hon (x & Hx & Hc)%forward_Ok_inv (x' & Hx' & Hc')%forward_Ok_inv.
  assert (Hm1 : memoize_on m1 = true ∧ ∃ v, memos m1 = {[mkHashedTensor x := v]}).
  { unfold memo_lookup, memo_store, clear_memos in Hc. simpl in Hc.
    rewrite Hon in Hc.
    destruct Hc as [(? & ? & ? & Hk & _)|(v & _ & _ & _ & ->)].
    - by rewrite lookup_empty in Hk.
    - simpl. split; [done|]. by exists v. }
  destruct Hm1 as [Hon1 [v Hm1]].
  assert (Hflag : p'.2 = true ↔ x' = x).
  { unfold memo_lookup in Hc'. rewrite Hon1, Hm1 in Hc'.
    destruct Hc' as [(? & ? & ? & Hk & -> & _)|(w & Hk & _ & -> & _)]; simpl.
    - apply lookup_singleton_Some in Hk as [[= ->] _]. done.
    - apply lookup_singleton_None in Hk. split; [done|]. intros ->. done. }
  split.
  - rewrite Hflag, Hx, Hx'. split; [by intros ->|by intros [= ->]].
  - intros Ds Ds'. rewrite Hflag. split.
    + intros ->. apply (torch_cat_inj d_s d_a); [done..|]. by rewrite Hx, Hx'.
    + intros [-> ->]. congruence.
Qed.

Lemma network_absolute m s s' x :
  delta_mode m = false → network m s x = network m s' x.
Proof. intros Hd. unfold network. by rewrite Hd. Qed.

Lemma coherent_same_parameters m1 m2 d_s d_a :
  same_parameters m1 m2 → memos m2 = memos m1 →
  coherent m1 d_s d_a → coherent m2 d_s d_a.
Proof.
  intros Hp Hm Hc x v Hk s a Hx Ha.
  rewrite <- (network_same_parameters m1 m2) by done.
  rewrite Hm in Hk. apply (Hc x v Hk s a Hx).
  unfold admissible in *. by destruct Hp as [-> _].
Qed.

(** A returning [forward] on an admissible query keeps the store
    coherent. *)
Lemma forward_coherent m d_s d_a s a p m' :
  coherent m d_s d_a → admissible m d_s d_a s a →
  forward m s a = Ok (p, m') → coherent m' d_s d_a.
Proof.
  intros Hc Ha (x & Hx & Hcase)%forward_Ok_inv.
  destruct Hcase as [(? & ? & ? & _ & _ & ->)|(v & Hk & Hv & _ & ->)]; [done|].
  unfold memo_store. destruct (memoize_on m) eqn:Hon; [|done].
  intros x0 v0 Hk0 s' a' Hx0 Ha0. simpl in Hk0.
  change (network (with_memos _ m) s' x0) with (network m s' x0).
  destruct (decide (x0 = x)) as [->|Hne].
  - rewrite lookup_insert_eq in Hk0. simplify_eq.
    destruct (delta_mode m) eqn:Hd.
    + destruct (torch_cat_inj d_s d_a s' a' s a) as [-> _];
        [by apply Ha0 | by apply Ha | congruence | done].
    + by rewrite (network_absolute m s' s).
  - rewrite lookup_insert_ne in Hk0 by congruence.
    by apply (Hc x0 v0 Hk0 s' a').
Qed.

Lemma step_coherent m d_s d_a (c : call F) :
  coherent m d_s d_a → unseeded m d_s d_a c → coherent (step m c) d_s d_a.
Proof.
  intros Hc Hu. destruct c as [| |s a ns r t| |s a]; simpl in Hu |- *.
  - exact Hc.
  - exact Hc.
  - done.
  - intros x v Hk. unfold clear_memos in Hk. simpl in Hk.
    by rewrite lookup_empty in Hk.
  - destruct (forward m s a) as [[p m']|e] eqn:E; [|done].
    by eapply forward_coherent.
Qed.

Lemma unseeded_same_parameters m1 m2 d_s d_a (c : call F) :
  same_parameters m1 m2 → unseeded m1 d_s d_a c → unseeded m2 d_s d_a c.
Proof.
  intros [Hd _]. destruct c; simpl; try done. unfold admissible. by rewrite Hd.
Qed.

Lemma steps_coherent m d_s d_a (cs : list (call F)) :
  coherent m d_s d_a → Forall (unseeded m d_s d_a) cs →
  coherent (steps m cs) d_s d_a.
Proof.
  unfold steps. intros Hc Hcs. revert m Hc Hcs.
  induction cs as [|c cs IH]; intros m Hc Hcs; simpl; [done|].
  inversion Hcs as [|?? Hu Hrest]; subst. apply IH.
  - by apply step_coherent.
  - eapply Forall_impl; [exact Hrest|]. intros c'.
    apply unseeded_same_parameters, step_same_parameters.
Qed.

Lemma coherent_empty m d_s d_a : memos m = ∅ → coherent m d_s d_a.
Proof. intros Hm x v Hk. by rewrite Hm, lookup_empty in Hk. Qed.

(** X8.  Memoization does not change what [forward] returns.  Start
    from an instance whose stored entries are what its layers compute
    (an empty store, for one) and make any calls except [set_memo], in
    delta mode only on queries the model was built for: then the store
    still holds only what the layers compute, and the next query gets
    the same prediction, or the same error, as with memoization
    stopped.  The restriction in delta mode is needed: there the sum
    broadcasts a latent state of width 1, whose key can be the key of a
    query of the right widths. *)
Theorem memoization_transparent m d_s d_a (cs : list (call F)) s a :
  coherent m d_s d_a → Forall (unseeded m d_s d_a) cs →
  admissible m d_s d_a s a →
  coherent (steps m cs) d_s d_a ∧
  (λ r, r.1.1) <$> forward (steps m cs) s a
  = (λ r, r.1.1) <$> forward (stop_memoize (steps m cs)) s a.
Proof.
  intros Hc Hcs Ha.
  pose proof (steps_coherent m d_s d_a cs Hc Hcs) as Hc1.
  split; [done|].
  set (m1 := steps m cs) in *.
  assert (Ha1 : admissible m1 d_s d_a s a).
  { unfold admissible in *. intros Hd. apply Ha.
    destruct (steps_same_parameters m cs) as [Hdm _].
    fold m1 in Hdm. congruence. }
  rewrite (forward_off_unfold (stop_memoize m1)) by done.
  rewrite forward_unfold.
  destruct (torch_cat s a) as [x|e] eqn:Hx; simpl; [|done].
  change (network (stop_memoize m1) s x) with (network m1 s x).
  unfold memo_lookup.
  destruct (memoize_on m1); [|by destruct (network m1 s x)].
  destruct (memos m1 !! mkHashedTensor x) as [[[n r] t]|] eqn:Hk.
  - by rewrite (Hc1 x (n, r, t) Hk s a Hx Ha1).
  - by destruct (network m1 s x).
Qed.
End Transparency.

(** ** Size of the store *)

Section Growth.
Context {F : Type} `{Countable F} `{Scalar F}.
Implicit Types (m : LatentDynamicsModel F) (s a x : Tensor F).



End Growth.

(** ** Batches *)

Lemma chunks_lookup {A} (n w : nat) (d : list A) (i : nat) :
  i < n → chunks n w d !! i = Some (take w (drop (i * w) d)).
Proof.
  revert d i. induction n as [|n IH]; intros d i Hi; [lia|].
  destruct i as [|i]; simpl; [done|].
  rewrite IH by lia. by rewrite drop_drop.
Qed.

Lemma row_of_concat {A} (rows : list (list A)) (w i : nat) (r : list A) :
  Forall (λ r, length r = w) rows → rows !! i = Some r →
  take w (drop (i * w) (concat rows)) = r.
Proof.
  intros Hall. revert i. induction Hall as [|r0 rows Hr0 Hall IH]; intros i Hi.
  - done.
  - destruct i as [|i].
    + injection Hi as ->. change (0 * w) with 0. rewrite drop_0.
      change (concat (r :: rows)) with (r ++ concat rows).
      by rewrite take_app_length'.
    + change (S i * w) with (w + i * w).
      change (concat (r0 :: rows)) with (r0 ++ concat rows).
      rewrite <- drop_drop, drop_app_length' by done. by apply IH.
Qed.

Lemma length_row_data {A} (b w i : nat) (d : list A) :
  length d = b * w → i < b → length (take w (drop (i * w) d)) = w.
Proof.
  intros Hd Hi. rewrite length_take, length_drop, Hd. nia.
Qed.

Lemma row_of_zip_chunks {A} (n ws wa i : nat) (ds da : list A) :
  length ds = n * ws → length da = n * wa → i < n →
  take (ws + wa) (drop (i * (ws + wa))
    (concat (zip_with app (chunks n ws ds) (chunks n wa da))))
  = take ws (drop (i * ws) ds) ++ take wa (drop (i * wa) da).
Proof.
  intros Hs Ha Hi.
  apply row_of_concat.
  - clear i Hi. revert ds da Hs Ha.
    induction n as [|n IH]; intros ds da Hs Ha; simpl; [constructor|].
    constructor.
    + rewrite length_app, !length_take. lia.
    + apply IH; rewrite length_drop; lia.
  - rewrite lookup_zip_with, !chunks_lookup by done. done.
Qed.

Section Rows.
Context {F : Type} `{Countable F} `{Scalar F}.
Implicit Types (m : LatentDynamicsModel F) (s a x : Tensor F).

Lemma row_snoc (t : Tensor F) lead w i :
  shape t = lead ++ [w] →
  row i t = mkTensor [w] (take w (drop (i * w) (data t))).
Proof. intros Ht. unfold row. by rewrite Ht, unsnoc_app. Qed.

Lemma valid_row (t : Tensor F) lead w i :
  shape t = lead ++ [w] → valid t → i < numel lead → valid (row i t).
Proof.
  intros Ht V Hi. rewrite (row_snoc t lead w) by done.
  unfold valid in *. simpl. rewrite Ht, numel_snoc in V.
  rewrite (length_row_data (numel lead)) by done. lia.
Qed.

Lemma row_relu x i : row i (torch_relu x) = torch_relu (row i x).
Proof.
  unfold row, torch_relu. simpl. destruct (unsnoc (shape x)) as [[l w]|]; [|done].
  simpl. by rewrite fmap_take, fmap_drop.
Qed.

Lemma row_sigmoid x i : row i (torch_sigmoid x) = torch_sigmoid (row i x).
Proof.
  unfold row, torch_sigmoid. simpl.
  destruct (unsnoc (shape x)) as [[l w]|]; [|done].
  simpl. by rewrite fmap_take, fmap_drop.
Qed.

Lemma length_affine (l : Linear F) (r : list F) :
  wf_Linear l → length (affine l r) = out_features l.
Proof.
  intros (Hw & _ & Hb). unfold affine. rewrite length_zip_with. lia.
Qed.

Lemma Linear_forward_row (l : Linear F) x y lead w i :
  wf_Linear l → shape x = lead ++ [w] → i < numel lead →
  Linear_forward l x = Ok y → Linear_forward l (row i x) = Ok (row i y).
Proof.
  intros Wf Hx Hi. unfold Linear_forward.
  rewrite (row_snoc x lead w) by done. rewrite Hx, unsnoc_app. simpl.
  case_bool_decide; [|done]. intros [= <-].
  rewrite (row_snoc _ lead (out_features l)) by done. simpl.
  rewrite take_take, Nat.min_id, app_nil_r.
  f_equal. f_equal. symmetry. apply row_of_concat.
  - apply Forall_fmap, Forall_forall. intros r _. simpl. by apply length_affine.
  - by rewrite list_lookup_fmap, chunks_lookup.
Qed.

Lemma snoc_eq_singleton (lead : list nat) (w v : nat) :
  lead ++ [w] = [v] → lead = [] ∧ w = v.
Proof.
  destruct lead as [|? [|]]; simpl; intros [=]; by subst.
Qed.

Lemma torch_cat_row s a x lead ws wa i :
  shape s = lead ++ [ws] → shape a = lead ++ [wa] →
  valid s → valid a → i < numel lead →
  torch_cat s a = Ok x → torch_cat (row i s) (row i a) = Ok (row i x).
Proof.
  intros Hs Ha Vs Va Hi. unfold torch_cat, cat_should_skip.
  rewrite (row_snoc s lead ws), (row_snoc a lead wa) by done.
  rewrite Hs, Ha, !unsnoc_app. simpl.
  unfold valid in Vs, Va. rewrite Hs, numel_snoc in Vs. rewrite Ha, numel_snoc in Va.
  destruct (decide (lead = [])) as [->|Hl].
  - simpl in *. assert (i = 0) as -> by lia. simpl.
    repeat case_bool_decide; simplify_eq/=; intros [= <-]; unfold row; simpl;
      rewrite ?Hs, ?Ha; simpl; try done.
    rewrite !drop_0, !take_take, !Nat.min_id, !app_nil_r.
    f_equal. f_equal. symmetry. apply take_ge.
    rewrite length_app, !length_take. lia.
  - rewrite (bool_decide_eq_false_2 (lead ++ [ws] = [0])),
      (bool_decide_eq_false_2 (lead ++ [wa] = [0]))
      by (by intros [? _]%snoc_eq_singleton).
    rewrite bool_decide_eq_true_2 by done. intros [= <-].
    rewrite (row_snoc _ lead (ws + wa)) by done. simpl.
    rewrite row_of_zip_chunks by done.
    repeat case_bool_decide; simplify_eq/=.
    + done.
    + done.
    + by rewrite Nat.add_0_r, app_nil_r.
    + by rewrite !take_take, !Nat.min_id, app_nil_r.
Qed.

Lemma tensor_add_row s o c lead w i :
  shape s = lead ++ [w] → shape o = lead ++ [w] →
  valid s → valid o → i < numel lead →
  tensor_add s o = Ok c → tensor_add (row i s) (row i o) = Ok (row i c).
Proof.
  intros Hs Ho Vs Vo Hi.
  rewrite tensor_add_same_shape by (done || congruence). intros [= <-].
  rewrite tensor_add_same_shape;
    [|by rewrite (row_snoc s lead w), (row_snoc o lead w)
     |by apply (valid_row _ lead w)..].
  rewrite (row_snoc (mkTensor _ _) lead w) by done.
  rewrite (row_snoc s lead w), (row_snoc o lead w) by done. simpl.
  by rewrite zip_with_drop, zip_with_take.
Qed.
End Rows.

Section Batches.
Context {F : Type} `{Countable F} `{Scalar F}.
Implicit Types (m : LatentDynamicsModel F) (s a x : Tensor F).

Lemma hidden_row m x h d_s d_a lead i :
  has_dims m d_s d_a → wf_layers m →
  shape x = lead ++ [d_s + d_a] → i < numel lead →
  hidden m x = Ok h → hidden m (row i x) = Ok (row i h).
Proof.
  intros D (W1 & W2 & _) Hx Hi. unfold hidden.
  destruct (Linear_forward_shape (fc1 m) x lead) as (y1 & E1 & S1).
  { destruct D as (-> & _). done. }
  rewrite E1, (Linear_forward_row _ _ _ lead _ i W1 Hx Hi E1). simpl.
  rewrite <- row_relu.
  destruct (Linear_forward (fc2 m) (torch_relu y1)) as [y2|e] eqn:E2; [|done].
  rewrite (Linear_forward_row (fc2 m) (torch_relu y1) y2 lead _ i W2 S1 Hi E2).
  simpl.
  intros [= <-]. by rewrite row_relu.
Qed.

Lemma network_row m s x v d_s d_a lead i :
  has_dims m d_s d_a → wf_layers m →
  shape s = lead ++ [d_s] → valid s →
  shape x = lead ++ [d_s + d_a] → i < numel lead →
  network m s x = Ok v →
  network m (row i s) (row i x) = Ok (row i v.1.1, row i v.1.2, row i v.2).
Proof.
  intros D W Hs Vs Hx Hi. unfold network.
  destruct (hidden_shape m x d_s d_a lead D Hx) as (h & Hh & Sh).
  rewrite Hh, (hidden_row m x h d_s d_a lead i D W Hx Hi Hh). simpl.
  destruct W as (_ & _ & WL & WR & WT).
  destruct (Linear_forward (latent_out m) h) as [o|e] eqn:Eo;
    [|by destruct (delta_mode m)].
  rewrite (Linear_forward_row _ _ _ lead _ i WL Sh Hi Eo).
  assert (So : shape o = lead ++ [d_s]).
  { destruct (Linear_forward_shape (latent_out m) h lead) as (o' & Eo' & So').
    - destruct D as (_ & _ & _ & _ & -> & _). done.
    - destruct D as (_ & _ & _ & _ & _ & <- & _). congruence. }
  destruct (Linear_forward (reward_out m) h) as [r|e] eqn:Er.
  2:{ destruct (delta_mode m); simpl; [|done]. by destruct (tensor_add s o). }
  rewrite (Linear_forward_row _ _ _ lead _ i WR Sh Hi Er).
  destruct (Linear_forward (term_out m) h) as [t|e] eqn:Et.
  2:{ destruct (delta_mode m); simpl; [|done]. by destruct (tensor_add s o). }
  rewrite (Linear_forward_row _ _ _ lead _ i WT Sh Hi Et).
  destruct (delta_mode m); simpl.
  - destruct (tensor_add s o) as [c|e] eqn:Ec; simpl; [|done].
    rewrite (tensor_add_row s o c lead d_s i Hs So Vs
               (Linear_forward_valid _ _ _ WL Eo) Hi Ec). simpl.
    intros [= <-]. simpl. by rewrite row_sigmoid.
  - intros [= <-]. simpl. by rewrite row_sigmoid.
Qed.

(** X10.  The rows of a batch do not interact.  When [forward]
    computes predictions for two batches of the same shape that agree
    in row [i] of the latent states and in row [i] of the actions, the
    two predictions agree in row [i] of the next state, of the reward
    and of the termination probability, whatever the other rows hold. *)
Theorem forward_rows_independent m s a s' a' d_s d_a lead i
    n r t m1 n' r' t' m1' :
  has_dims m d_s d_a → wf_layers m →
  shape s = lead ++ [d_s] → shape a = lead ++ [d_a] →
  shape s' = lead ++ [d_s] → shape a' = lead ++ [d_a] →
  valid s → valid a → valid s' → valid a' →
  i < numel lead → row i s = row i s' → row i a = row i a' →
  forward m s a = Ok ((n, r, t, false), m1) →
  forward m s' a' = Ok ((n', r', t', false), m1') →
  row i n = row i n' ∧ row i r = row i r' ∧ row i t = row i t'.
Proof.
  intros D W Hs Ha Hs' Ha' Vs Va Vs' Va' Hi Rs Ra
    (x & Hx & Hcase)%forward_Ok_inv (x' & Hx' & Hcase')%forward_Ok_inv.
  destruct Hcase as [(? & ? & ? & _ & ? & _)|(v & _ & Hv & Hp & _)]; [done|].
  destruct Hcase' as [(? & ? & ? & _ & ? & _)|(v' & _ & Hv' & Hp' & _)];
    [done|].
  simplify_eq.
  assert (Sx : shape x = lead ++ [d_s + d_a]).
  { destruct (torch_cat_shape s a lead d_s d_a Hs Ha) as (? & ? & ?).
    congruence. }
  assert (Sx' : shape x' = lead ++ [d_s + d_a]).
  { destruct (torch_cat_shape s' a' lead d_s d_a Hs' Ha') as (? & ? & ?).
    congruence. }
  pose proof (torch_cat_row s a x lead d_s d_a i Hs Ha Vs Va Hi Hx) as Rx.
  pose proof (torch_cat_row s' a' x' lead d_s d_a i Hs' Ha' Vs' Va' Hi Hx')
    as Rx'.
  rewrite Rs, Ra, Rx' in Rx. injection Rx as Rx.
  pose proof (network_row m s x (n, r, t) d_s d_a lead i D W Hs Vs Sx Hi Hv)
    as Hrow.
  pose proof (network_row m s' x' (n', r', t') d_s d_a lead i
                D W Hs' Vs' Sx' Hi Hv') as Hrow'.
  rewrite Rs, <- Rx, Hrow' in Hrow. simpl in Hrow. by simplify_eq.
Qed.
End Batches.

(** ** The properties above on concrete models *)

Lemma wf_layer_init (i o : nat) (w : Z) (b : list Z) :
  length b = o → wf_Linear (nn_Linear i o (layer_init i o w b)).
Proof.
  intros Hb. unfold wf_Linear, nn_Linear, layer_init. simpl.
  rewrite length_replicate, length_fmap. split; [done|]. split; [|done].
  apply Forall_replicate, length_replicate.
Qed.

Lemma wf_layers_init22 delta : wf_layers (init 2 2 delta cpu None params22).
Proof.
  split; [exact (wf_layer_init 4 256 1 (replicate 256 0%Z) eq_refl)|].
  split; [exact (wf_layer_init 256 32 0 (replicate 32 1%Z) eq_refl)|].
  split; [exact (wf_layer_init 32 2 0 [1; 2]%Z eq_refl)|].
  split; [exact (wf_layer_init 32 1 0 [3]%Z eq_refl)|].
  exact (wf_layer_init 32 1 0 [0]%Z eq_refl).
Qed.

Lemma wf_layers_dense22 : wf_layers dense22.
Proof.
  split; [exact (wf_layer_init 4 256 1 (replicate 256 0%Z) eq_refl)|].
  split; [exact (wf_layer_init 256 32 1 (replicate 32 1%Z) eq_refl)|].
  split; [exact (wf_layer_init 32 2 1 [1; 2]%Z eq_refl)|].
  split; [exact (wf_layer_init 32 1 1 [3]%Z eq_refl)|].
  exact (wf_layer_init 32 1 (-1) [0]%Z eq_refl).
Qed.

Lemma in_domain_s0_a0 : in_domain 2 2 s0 a0.
Proof. split; [by exists []|]. split; reflexivity. Qed.

Example delta22_forward_batch :
  forward delta22 s_batch a_batch
  = Ok ((n_batch, r_batch, t_batch, false), delta22).
Proof. vm_compute. reflexivity. Qed.

(** X2 at the batch of two queries. *)
Lemma forward_output_shapes_witness :
  has_dims delta22 2 2 ∧
  forward delta22 s_batch a_batch
    = Ok ((n_batch, r_batch, t_batch, false), delta22) ∧
  shape n_batch = [2; 2] ∧ shape r_batch = [2; 1] ∧ shape t_batch = [2; 1].
Proof.
  split; [apply has_dims_init22|]. split; [exact delta22_forward_batch|].
  exact (forward_output_shapes delta22 s_batch a_batch 2 2 [2] _ _ _ _
           (has_dims_init22 true) eq_refl eq_refl delta22_forward_batch).
Defined.

(** X3 at the first call of [delta22] with memoization on: a miss that
    leaves one entry in the store. *)
Lemma forward_store_effect_witness :
  ∃ n r t hit m',
    forward (start_memoize delta22) s0 a0 = Ok ((n, r, t, hit), m') ∧
    hit = false ∧ size (memos m') = 1 ∧
    memos (start_memoize delta22) ⊆ memos m'.
Proof.
  assert (D : has_dims (start_memoize delta22) 2 2) by repeat split.
  assert (W : well_shaped 2 2 s0 a0) by (by exists []).
  destruct (forward_returns (start_memoize delta22) s0 a0 2 2 D W)
    as ([[[n r] t] hit] & m' & E).
  destruct (forward_store_effect (start_memoize delta22) s0 a0 n r t hit m' E)
    as (x & _ & Hflag & _ & Hmiss & _ & Hsub).
  assert (Hf : hit = false).
  { destruct hit; [|done]. destruct (proj1 Hflag eq_refl) as [_ [v Hv]].
    discriminate Hv. }
  exists n, r, t, hit, m'. split; [exact E|]. split; [exact Hf|].
  split; [|exact Hsub].
  destruct (Hmiss Hf eq_refl) as (_ & _ & Hsize). rewrite Hsize. reflexivity.
Defined.

(** X4 at [delta22] on a latent state of width 1 and an action of width
    3: the call returns, and the next state has width 2. *)
Lemma delta_broadcast_accepted_witness :
  has_dims delta22 2 2 ∧
  ∃ n r t m',
    forward delta22 (vec [1]%Z) (vec [2; 0; 1]%Z)
    = Ok ((n, r, t, false), m') ∧
    shape n = [2] ∧ shape r = [1] ∧ shape t = [1].
Proof.
  split; [apply has_dims_init22|].
  apply (delta_broadcast_accepted delta22 (vec [1]%Z) (vec [2; 0; 1]%Z)
           2 2 [] 1 3).
  - apply has_dims_init22.
  - reflexivity.
  - reflexivity.
  - reflexivity.
  - reflexivity.
  - right. left. reflexivity.
  - intros x _. apply memo_lookup_off. reflexivity.
Defined.

(** X6 at [delta22] after one call, on the batch of two queries. *)
Lemma fresh_model_computes_witness :
  steps delta22 [Forward s0 a0] = delta22 ∧
  ∃ n r t,
    forward (steps delta22 [Forward s0 a0]) s_batch a_batch
    = Ok ((n, r, t, false), delta22) ∧
    shape n = [2; 2] ∧ shape r = [2; 1] ∧ shape t = [2; 1].
Proof.
  destruct (fresh_model_computes 2 2 true cpu None params22 [(s0, a0)]
              s_batch a_batch [2] eq_refl eq_refl) as (Hsteps & _ & Hret).
  split; [exact Hsteps | exact Hret].
Defined.

(** X7 at [delta22] with memoization on: after a first call on
    [(s0, a0)], a call on another latent state with the same action is
    no hit. *)
Lemma memo_key_exact_match_witness :
  ∃ p m1 p' m2,
    forward (clear_memos (start_memoize delta22)) s0 a0 = Ok (p, m1) ∧
    forward m1 (vec [2; 4]%Z) a0 = Ok (p', m2) ∧
    (p'.2 = true ↔ vec [2; 4]%Z = s0 ∧ a0 = a0) ∧
    p'.2 = false.
Proof.
  assert (D : has_dims (clear_memos (start_memoize delta22)) 2 2)
    by repeat split.
  assert (W' : in_domain 2 2 (vec [2; 4]%Z) a0).
  { split; [by exists []|]. split; reflexivity. }
  destruct (forward_returns _ s0 a0 2 2 D (proj1 in_domain_s0_a0))
    as (p & m1 & E1).
  destruct (forward_returns m1 (vec [2; 4]%Z) a0 2 2
              (forward_has_dims _ _ _ _ _ 2 2 E1 D) (proj1 W'))
    as (p' & m2 & E2).
  pose proof (proj2 (memo_key_exact_match (start_memoize delta22) 2 2
                       s0 a0 (vec [2; 4]%Z) a0 p m1 p' m2 eq_refl E1 E2)
                in_domain_s0_a0 W') as Hiff.
  exists p, m1, p', m2. split; [exact E1|]. split; [exact E2|].
  split; [exact Hiff|].
  destruct (p'.2); [|reflexivity].
  destruct (proj1 Hiff eq_refl) as [Hs _]. discriminate Hs.
Defined.

(** X8 at [delta22] with memoization on, after a call, a stop, another
    call and a restart. *)
Lemma memoization_transparent_witness :
  coherent
    (steps (start_memoize delta22)
       [Forward s0 a0; StopMemoize; Forward s0 a0; StartMemoize]) 2 2 ∧
  (λ r, r.1.1) <$>
    forward (steps (start_memoize delta22)
               [Forward s0 a0; StopMemoize; Forward s0 a0; StartMemoize]) s0 a0
  = (λ r, r.1.1) <$>
    forward (stop_memoize
               (steps (start_memoize delta22)
                  [Forward s0 a0; StopMemoize; Forward s0 a0; StartMemoize]))
      s0 a0.
Proof.
  assert (C : coherent (start_memoize delta22) 2 2) by (by apply coherent_empty).
  assert (A : admissible (start_memoize delta22) 2 2 s0 a0)
    by (intros _; exact in_domain_s0_a0).
  assert (U : Forall (unseeded (start_memoize delta22) 2 2)
                [Forward s0 a0; StopMemoize; Forward s0 a0; StartMemoize]).
  { constructor; [exact A|]. constructor; [exact I|].
    constructor; [exact A|]. constructor; [exact I|]. constructor. }
  exact (memoization_transparent (start_memoize delta22) 2 2
           [Forward s0 a0; StopMemoize; Forward s0 a0; StartMemoize] s0 a0
           C U A).
Defined.

(** In delta mode the restriction to queries of the right widths
    matters for memoization against recomputation.  A latent state of width 1 with an action of width 3 has
    the key of [(s0, a0)]; [delta22] broadcasts it, stores the result,
    and then returns that result for [(s0, a0)], for which the layers
    compute another next state. *)
Example broadcast_query_shares_key :
  ∃ m1,
    forward (start_memoize delta22) (vec [1]%Z) (vec [2; 0; 1]%Z)
    = Ok ((vec [2; 3]%Z, vec [3]%Z, torch_sigmoid (vec [0]%Z), false), m1) ∧
    forward m1 s0 a0
    = Ok ((vec [2; 3]%Z, vec [3]%Z, torch_sigmoid (vec [0]%Z), true), m1) ∧
    fst <$> forward (stop_memoize m1) s0 a0
    = Ok (vec [2; 4]%Z, vec [3]%Z, torch_sigmoid (vec [0]%Z), false).
Proof.
  set (x := vec [1; 2; 0; 1]%Z).
  set (v := (vec [2; 3]%Z, vec [3]%Z, torch_sigmoid (vec [0]%Z))).
  assert (Hx : torch_cat (vec [1]%Z) (vec [2; 0; 1]%Z) = Ok x) by reflexivity.
  assert (Hx0 : torch_cat s0 a0 = Ok x) by reflexivity.
  assert (Hv : network (start_memoize delta22) (vec [1]%Z) x = Ok v)
    by (vm_compute; reflexivity).
  assert (Hn : network delta22 s0 x
               = Ok (vec [2; 4]%Z, vec [3]%Z, torch_sigmoid (vec [0]%Z)))
    by (vm_compute; reflexivity).
  clearbody x v.
  exists (memo_store (start_memoize delta22) x v). split; [|split].
  - rewrite (forward_miss _ _ _ x Hx); [by rewrite Hv|].
    exact (lookup_empty _).
  - destruct v as [[n r] t].
    apply (forward_hit _ _ _ x); [exact Hx0 | reflexivity |].
    exact (lookup_insert_eq _ _ _).
  - rewrite forward_off_unfold by reflexivity. rewrite Hx0.
    change (fst <$> (w ← network delta22 s0 x;
                     Ok (w, false, stop_memoize
                                     (memo_store (start_memoize delta22) x v)))
            = Ok (vec [2; 4]%Z, vec [3]%Z, torch_sigmoid (vec [0]%Z), false)).
    by rewrite Hn.
Qed.

(** X10 at [dense22] on two batches of two queries that agree in their
    first row, whose entries are no integers, and differ in the
    second. *)
Lemma forward_rows_independent_witness :
  row 0 s_mixed = row 0 s_mixed' ∧ row 1 s_mixed ≠ row 1 s_mixed' ∧
  ∃ n r t n' r' t',
    forward dense22 s_mixed a_batch = Ok ((n, r, t, false), dense22) ∧
    forward dense22 s_mixed' a_batch = Ok ((n', r', t', false), dense22) ∧
    row 0 n = row 0 n' ∧ row 0 r = row 0 r' ∧ row 0 t = row 0 t'.
Proof.
  assert (D : has_dims dense22 2 2) by apply init_has_dims.
  assert (R0 : row 0 s_mixed = row 0 s_mixed') by reflexivity.
  split; [exact R0|]. split; [vm_compute; discriminate|].
  assert (Ws : well_shaped 2 2 s_mixed a_batch) by (by exists [2]).
  assert (Ws' : well_shaped 2 2 s_mixed' a_batch) by (by exists [2]).
  destruct (forward_returns dense22 s_mixed a_batch 2 2 D Ws)
    as ([[[n r] t] hit] & m1 & E).
  destruct (forward_off dense22 _ _ _ _ eq_refl E) as [Hhit Hm1].
  simpl in Hhit. subst hit m1.
  destruct (forward_returns dense22 s_mixed' a_batch 2 2 D Ws')
    as ([[[n' r'] t'] hit] & m1 & E').
  destruct (forward_off dense22 _ _ _ _ eq_refl E') as [Hhit Hm1].
  simpl in Hhit. subst hit m1.
  exists n, r, t, n', r', t'. split; [exact E|]. split; [exact E'|].
  assert (Hlt : 0 < numel [2]) by (simpl; lia).
  exact (forward_rows_independent dense22 s_mixed a_batch s_mixed' a_batch
           2 2 [2] 0 n r t dense22 n' r' t' dense22
           D wf_layers_dense22 eq_refl eq_refl eq_refl eq_refl
           eq_refl eq_refl eq_refl eq_refl Hlt R0 eq_refl E E').
Defined.
